(** * BitTube and the input event label tables

    A shallow embedding of [libs/gui/BitTube.cpp] and of the lookup
    functions of [include/input/InputEventLabels.h].

    [BitTube] talks to the operating system through [socketpair], [send],
    [recv], [dup] and [close]; module [Posix] is the model of those calls:
    a descriptor table, one datagram queue per socket end (SOCK_SEQPACKET
    keeps message boundaries), reference counts for [dup]/[close], the
    thread's [errno], and a script of injected outcomes (interrupted calls,
    failing calls, a transport that moves fewer bytes than asked).

    Integers are [Z].  [size_t] is [wbits] bits wide, [ssize_t] is its
    signed counterpart; the width is a parameter of the development. *)

From Stdlib Require Import ZArith Lia.
From Stdlib.Strings Require Import Byte Ascii String.
From stdpp Require Import base gmap strings list fin_maps pretty.

Local Open Scope Z_scope.

(** ** errno values (Linux, asm-generic/errno.h) *)
Module Errno.

Definition EINTR : Z := 4.
Definition EBADF : Z := 9.
Definition EAGAIN : Z := 11.
Definition EWOULDBLOCK : Z := EAGAIN.
Definition EINVAL : Z := 22.
Definition EMFILE : Z := 24.
Definition EPIPE : Z := 32.
Definition EMSGSIZE : Z := 90.
Definition EADDRINUSE : Z := 98.
Definition ENOTCONN : Z := 107.

End Errno.

(** ** The operating system, as far as BitTube uses it *)
Module Posix.
Import Errno.

(** A socket end: the id of its pair, and which end ([false] is
    [sockets[0]], [true] is [sockets[1]]). *)
Abbreviation endpoint := (nat * bool)%type.

Definition peer (e : endpoint) : endpoint := (e.1, negb e.2).

(** One end of a connected SOCK_SEQPACKET pair: the datagrams queued for
    it, how many descriptors refer to it, its buffer sizes, its file
    status flag and the name it is bound to. *)
Record sock := mkSock {
  rx : list (list byte);
  refs : nat;
  so_sndbuf : Z;
  so_rcvbuf : Z;
  o_nonblock : bool;
  sun_path : option string
}.

(** An injected outcome for the next call: the call fails with the given
    errno, or the transport moves at most [n] bytes. *)
Inductive fault :=
  | Refuse (e : positive)
  | Short (n : nat).

Record World := mkWorld {
  fdtab : gmap nat endpoint;
  nofile : nat;
  socks : gmap endpoint sock;
  bound : gset string;
  errno : Z;
  faults : list fault;
  props : gmap string string;
  pid : Z;
  tid : Z;
  proc_comm : gmap Z string
}.

Definition set_fdtab (f : gmap nat endpoint) (w : World) : World :=
  mkWorld f (nofile w) (socks w) (bound w) (errno w) (faults w)
          (props w) (pid w) (tid w) (proc_comm w).

Definition set_socks (s : gmap endpoint sock) (w : World) : World :=
  mkWorld (fdtab w) (nofile w) s (bound w) (errno w) (faults w)
          (props w) (pid w) (tid w) (proc_comm w).

Definition set_bound (b : gset string) (w : World) : World :=
  mkWorld (fdtab w) (nofile w) (socks w) b (errno w) (faults w)
          (props w) (pid w) (tid w) (proc_comm w).

Definition set_errno (e : Z) (w : World) : World :=
  mkWorld (fdtab w) (nofile w) (socks w) (bound w) e (faults w)
          (props w) (pid w) (tid w) (proc_comm w).

Definition set_faults (fs : list fault) (w : World) : World :=
  mkWorld (fdtab w) (nofile w) (socks w) (bound w) (errno w) fs
          (props w) (pid w) (tid w) (proc_comm w).

Definition set_rx (q : list (list byte)) (s : sock) : sock :=
  mkSock q (refs s) (so_sndbuf s) (so_rcvbuf s) (o_nonblock s) (sun_path s).

Definition set_refs (n : nat) (s : sock) : sock :=
  mkSock (rx s) n (so_sndbuf s) (so_rcvbuf s) (o_nonblock s) (sun_path s).

Definition set_sndbuf (v : Z) (s : sock) : sock :=
  mkSock (rx s) (refs s) v (so_rcvbuf s) (o_nonblock s) (sun_path s).

Definition set_rcvbuf (v : Z) (s : sock) : sock :=
  mkSock (rx s) (refs s) (so_sndbuf s) v (o_nonblock s) (sun_path s).

Definition set_nonblock (b : bool) (s : sock) : sock :=
  mkSock (rx s) (refs s) (so_sndbuf s) (so_rcvbuf s) b (sun_path s).

Definition set_path (p : option string) (s : sock) : sock :=
  mkSock (rx s) (refs s) (so_sndbuf s) (so_rcvbuf s) (o_nonblock s) p.

(** A failing call returns -1 and leaves its reason in [errno]. *)
Definition fail (e : Z) (w : World) : Z * World := (-1, set_errno e w).

(** The head of the script is consumed by the call that meets it. *)
Definition next_fault (w : World) : option fault * World :=
  match faults w with
  | [] => (None, w)
  | f :: fs => (Some f, set_faults fs w)
  end.

(** The socket end a descriptor refers to.  Descriptors are non-negative
    integers: a negative [int] is never an open descriptor. *)
Definition lookup_fd (fd : Z) (w : World) : option endpoint :=
  if decide (0 <= fd) then fdtab w !! Z.to_nat fd else None.

(** The lowest descriptor number not in use, below RLIMIT_NOFILE. *)
Definition fd_free (w : World) (n : nat) : bool :=
  match fdtab w !! n with
  | None => true
  | Some _ => false
  end.

Definition alloc_fd (w : World) : option nat :=
  List.find (fd_free w) (seq 0 (nofile w)).

(** Bytes waiting in a queue. *)
Definition queued (q : list (list byte)) : nat :=
  foldr (λ m n, (length m + n)%nat) 0%nat q.

(** Whether a datagram of [len] bytes is admitted.  The model charges a
    datagram its payload only, against the smaller of the sender's send
    buffer and the receiver's receive buffer; a kernel also charges each
    datagram its bookkeeping, so that it admits fewer small datagrams than
    this.  What is proved of a series of sends therefore takes their
    acceptance as given, not as a consequence of the sizes. *)
Definition room (s p : sock) (len : nat) : bool :=
  bool_decide (Z.of_nat (queued (rx p) + len) ≤ Z.min (so_sndbuf s) (so_rcvbuf p)).

Definition enqueue (m : list byte) (s : sock) : sock := set_rx (rx s ++ [m]) s.

(** [send] on a connected, non-blocking SOCK_SEQPACKET socket with
    MSG_NOSIGNAL: the datagram is queued whole at the peer, or not at all. *)
Definition deliver (e : endpoint) (data : list byte) (w : World) : Z * World :=
  match socks w !! e, socks w !! peer e with
  | Some s, Some p =>
      if decide (refs p = 0%nat) then fail EPIPE w
      else if decide (so_sndbuf s < Z.of_nat (length data)) then fail EMSGSIZE w
      else if room s p (length data)
      then (Z.of_nat (length data),
            set_socks (<[peer e := enqueue data p]> (socks w)) w)
      else fail EAGAIN w
  | _, _ => fail ENOTCONN w
  end.

Definition send (fd : Z) (data : list byte) (w : World) : Z * World :=
  match lookup_fd fd w with
  | None => fail EBADF w
  | Some e =>
      match next_fault w with
      | (Some (Refuse n), w1) => fail (Z.pos n) w1
      | (Some (Short n), w1) => deliver e (take n data) w1
      | (None, w1) => deliver e data w1
      end
  end.

(** [recv] with MSG_DONTWAIT: the first queued datagram, cut to the
    caller's capacity (the rest of it is discarded); 0 when the queue is
    empty and the peer is gone; EAGAIN when it is empty and the peer lives. *)
Definition fetch (e : endpoint) (cap : nat) (w : World) : Z * list byte * World :=
  match socks w !! e with
  | Some s =>
      match rx s with
      | m :: q =>
          let data := take cap m in
          (Z.of_nat (length data), data,
           set_socks (<[e := set_rx q s]> (socks w)) w)
      | [] =>
          match socks w !! peer e with
          | Some p =>
              if decide (refs p = 0%nat) then (0, [], w)
              else (-1, [], set_errno EAGAIN w)
          | None => (0, [], w)
          end
      end
  | None => (-1, [], set_errno ENOTCONN w)
  end.

Definition recv (fd : Z) (cap : nat) (w : World) : Z * list byte * World :=
  match lookup_fd fd w with
  | None => (-1, [], set_errno EBADF w)
  | Some e =>
      match next_fault w with
      | (Some (Refuse n), w1) => (-1, [], set_errno (Z.pos n) w1)
      | (Some (Short n), w1) => fetch e (Nat.min n cap) w1
      | (None, w1) => fetch e cap w1
      end
  end.

Definition ref (s : sock) : sock := set_refs (S (refs s)) s.
Definition unref (s : sock) : sock := set_refs (Nat.pred (refs s)) s.

Definition dup (fd : Z) (w : World) : Z * World :=
  match lookup_fd fd w with
  | None => fail EBADF w
  | Some e =>
      match next_fault w with
      | (Some (Refuse n), w1) => fail (Z.pos n) w1
      | (_, w1) =>
          match alloc_fd w1 with
          | None => fail EMFILE w1
          | Some n =>
              (Z.of_nat n,
               set_socks (alter ref e (socks w1))
                 (set_fdtab (<[n := e]> (fdtab w1)) w1))
          end
      end
  end.

Definition close (fd : Z) (w : World) : Z * World :=
  match lookup_fd fd w with
  | None => fail EBADF w
  | Some e =>
      (0, set_socks (alter unref e (socks w))
            (set_fdtab (delete (Z.to_nat fd) (fdtab w)) w))
  end.

(** Size the kernel gives a socket buffer nobody configured (the source
    says "typically about 128KB"). *)
Definition default_bufsize : Z := 128 * 1024.

Definition new_sock : sock :=
  mkSock [] 1 default_bufsize default_bufsize false None.

Definition fresh_pair (w : World) : nat :=
  fresh (set_map (D := gset nat) fst (dom (socks w))).

(** [socketpair(AF_UNIX, SOCK_SEQPACKET, 0, sockets)]: the result and the
    two descriptors written to [sockets] (meaningless on failure). *)
Definition socketpair (w : World) : Z * (Z * Z) * World :=
  match next_fault w with
  | (Some (Refuse n), w1) => (-1, (-1, -1), set_errno (Z.pos n) w1)
  | (_, w1) =>
      match alloc_fd w1 with
      | None => (-1, (-1, -1), set_errno EMFILE w1)
      | Some a =>
          let p := fresh_pair w1 in
          let w2 := set_fdtab (<[a := (p, false)]> (fdtab w1)) w1 in
          match alloc_fd w2 with
          | None => (-1, (-1, -1), set_errno EMFILE w1)
          | Some b =>
              (0, (Z.of_nat a, Z.of_nat b),
               set_socks (<[(p, true) := new_sock]>
                            (<[(p, false) := new_sock]> (socks w2)))
                 (set_fdtab (<[b := (p, true)]> (fdtab w2)) w2))
          end
      end
  end.

Inductive sockopt := SO_SNDBUF | SO_RCVBUF.

(** The model keeps the requested size as the limit.  A kernel is free
    to grant another size than the one asked for (to round it, double it
    or raise it to a minimum): the size a constructor asks for is not the
    number of bytes the channel will carry. *)
Definition setsockopt (fd : Z) (o : sockopt) (v : Z) (w : World) : Z * World :=
  match lookup_fd fd w with
  | None => fail EBADF w
  | Some e =>
      (0, set_socks (alter (match o with
                            | SO_SNDBUF => set_sndbuf v
                            | SO_RCVBUF => set_rcvbuf v
                            end) e (socks w)) w)
  end.

(** [fcntl(fd, F_SETFL, O_NONBLOCK)]. *)
Definition fcntl_nonblock (fd : Z) (w : World) : Z * World :=
  match lookup_fd fd w with
  | None => fail EBADF w
  | Some e => (0, set_socks (alter (set_nonblock true) e (socks w)) w)
  end.

(** [bind] to a name of the abstract namespace. *)
Definition bind (fd : Z) (name : string) (w : World) : Z * World :=
  match lookup_fd fd w with
  | None => fail EBADF w
  | Some e =>
      match socks w !! e with
      | None => fail ENOTCONN w
      | Some s =>
          if decide (is_Some (sun_path s)) then fail EINVAL w
          else if decide (name ∈ bound w) then fail EADDRINUSE w
          else (0, set_bound ({[name]} ∪ bound w)
                     (set_socks (alter (set_path (Some name)) e (socks w)) w))
      end
  end.

(** [property_get(key, value, default_value)]. *)
Definition property_get (key default_value : string) (w : World) : string :=
  default default_value (props w !! key).

End Posix.

(** ** libs/gui/BitTube.cpp *)
Module BitTube.
Import Errno.
Export Posix.

(** [utils/Errors.h]. *)
Definition NO_ERROR : Z := 0.

(** Modelled from the spec: the cross-process message ([binder/Parcel.h]) is
    not among the sources.  Section 6 asks of it only [writeHandle(ref)] and
    [readHandle() -> ref]; a message is the list of the handle references
    written to it.  Reading from a message that holds no handle yields the
    negative code [BAD_TYPE]; writing duplicates the descriptor and appends
    the duplicate, or reports the negated errno of the failed [dup]. *)
Abbreviation Parcel := (list Z).

Definition BAD_TYPE : Z := -2147483647.

Definition readFileDescriptor (data : Parcel) : Z * Parcel :=
  match data with
  | [] => (BAD_TYPE, [])
  | fd :: rest => (fd, rest)
  end.

Definition writeDupFileDescriptor (fd : Z) (reply : Parcel) (w : World)
  : Z * Parcel * World :=
  let '(d, w1) := dup fd w in
  if d <? 0 then (- errno w1, reply, w1)
  else (NO_ERROR, reply ++ [d], w1).

(** The object: its two descriptors. *)
Record tube := mkTube {
  mSendFd : Z;
  mReceiveFd : Z
}.

Definition set_mReceiveFd (fd : Z) (t : tube) : tube := mkTube (mSendFd t) fd.

(** Socket buffer size. *)
Definition DEFAULT_SOCKET_BUFFER_SIZE : Z := 4 * 1024.

Definition FILE_NAME_LEN : nat := 1024.
Definition SOCKET_NAME_LEN : nat := 108.

(** [fgets(buf, n, fp)] on the contents of a file: at most [n - 1]
    characters, up to and with the first newline; the empty string stands
    for the NULL result at end of file. *)
Fixpoint fgets (room : nat) (s : string) : string :=
  match room, s with
  | S k, String c r =>
      String c (if Ascii.eqb c "010"%char then EmptyString else fgets k r)
  | _, _ => EmptyString
  end.

(** [buf[strlen(buf) - 1] = '\0']. *)
Definition chop (s : string) : string :=
  String.substring 0 (String.length s - 1) s.

(** The name read from [/proc/<id>/comm], or ["t<id>"]. *)
Definition commName (id : Z) (w : World) : string :=
  let name :=
    match proc_comm w !! id with
    | Some contents =>
        let line := fgets (FILE_NAME_LEN - 1) contents in
        if String.eqb line "" then line else chop line
    | None => EmptyString
    end in
  if String.eqb name "" then String.append "t" (pretty id) else name.

(** [snprintf(sockName, SOCKET_NAME_LEN - 1, "%s-%s-f%d", ...)]. *)
Definition sockName (pidName tidName : string) (fd : Z) : string :=
  String.substring 0 (SOCKET_NAME_LEN - 2)
    (String.append pidName
       (String.append "-" (String.append tidName
          (String.append "-f" (pretty fd))))).

(** SPRD: bind a name to sockets. *)
Definition setSocketName (socket0 socket1 : Z) (w : World) : World :=
  let pidName := commName (pid w) w in
  let tidName := commName (tid w) w in
  let w1 :=
    if 0 <=? socket0
    then (bind socket0 (sockName pidName tidName socket0) w).2
    else w in
  if 0 <=? socket1
  then (bind socket1 (sockName pidName tidName socket1) w1).2
  else w1.

Definition init (rcvbuf sndbuf : Z) (t : tube) (w : World) : tube * World :=
  let '(r, (s0, s1), w0) := socketpair w in
  if r =? 0 then
    let size := DEFAULT_SOCKET_BUFFER_SIZE in
    let w1 := (setsockopt s0 SO_RCVBUF rcvbuf w0).2 in
    let w2 := (setsockopt s1 SO_SNDBUF sndbuf w1).2 in
    let w3 := (setsockopt s0 SO_SNDBUF size w2).2 in
    let w4 := (setsockopt s1 SO_RCVBUF size w3).2 in
    let w5 := (fcntl_nonblock s0 w4).2 in
    let w6 := (fcntl_nonblock s1 w5).2 in
    let t' := mkTube s1 s0 in
    if String.eqb (property_get "ro.debuggable" "" w6) "1"
    then (t', setSocketName s0 s1 w6)
    else (t', w6)
  else (set_mReceiveFd (- errno w0) t, w0).

(** [BitTube::BitTube()]. *)
Definition BitTube_default (w : World) : tube * World :=
  init DEFAULT_SOCKET_BUFFER_SIZE DEFAULT_SOCKET_BUFFER_SIZE (mkTube (-1) (-1)) w.

(** [BitTube::BitTube(size_t bufsize)]. *)
Definition BitTube_bufsize (bufsize : Z) (w : World) : tube * World :=
  init bufsize bufsize (mkTube (-1) (-1)) w.

(** [BitTube::BitTube(const Parcel& data)]. *)
Definition BitTube_Parcel (data : Parcel) (w : World) : tube * World :=
  let t := mkTube (-1) (-1) in
  let '(fd, w1) := dup (readFileDescriptor data).1 w in
  if fd <? 0 then (set_mReceiveFd (- errno w1) t, w1)
  else (set_mReceiveFd fd t, w1).

(** [BitTube::~BitTube()]. *)
Definition BitTube_destroy (t : tube) (w : World) : World :=
  let w1 := if 0 <=? mSendFd t then (close (mSendFd t) w).2 else w in
  if 0 <=? mReceiveFd t then (close (mReceiveFd t) w1).2 else w1.

Definition initCheck (t : tube) : Z :=
  if mReceiveFd t <? 0 then mReceiveFd t else NO_ERROR.

Definition getFd (t : tube) : Z := mReceiveFd t.

Definition getSendFd (t : tube) : Z := mSendFd t.

(** The [do ... while (err == EINTR)] loop of [write]: [(len, err)] of the
    last round, or [None] when [fuel] rounds were all interrupted. *)
Fixpoint send_retry (fuel : nat) (fd : Z) (data : list byte) (w : World)
  : option (Z * Z * World) :=
  match fuel with
  | O => None
  | S k =>
      let '(len, w1) := send fd data w in
      let err := if len <? 0 then errno w1 else 0 in
      if err =? EINTR then send_retry k fd data w1
      else Some (len, err, w1)
  end.

(** Every interrupted round uses up one entry of the script, so one round
    more than the script is long always ends the loop. *)
Definition rounds (w : World) : nat := S (length (faults w)).

Definition write (t : tube) (vaddr : list byte) (size : Z) (w : World)
  : option (Z * World) :=
  '(len, err, w1) ← send_retry (rounds w) (mSendFd t)
                      (take (Z.to_nat size) vaddr) w;
  Some (if err =? 0 then len else - err, w1).

(** The loop of [read]: [(len, err)] and the bytes of the last round. *)
Fixpoint recv_retry (fuel : nat) (fd : Z) (size : nat) (w : World)
  : option (Z * Z * list byte * World) :=
  match fuel with
  | O => None
  | S k =>
      let '(len, data, w1) := recv fd size w in
      let err := if len <? 0 then errno w1 else 0 in
      if err =? EINTR then recv_retry k fd size w1
      else Some (len, err, data, w1)
  end.

(** What [recv] leaves in the caller's buffer. *)
Definition store (data vaddr : list byte) : list byte :=
  data ++ drop (length data) vaddr.

Definition read (t : tube) (vaddr : list byte) (size : Z) (w : World)
  : option (Z * list byte * World) :=
  '(len, err, data, w1) ← recv_retry (rounds w) (mReceiveFd t) (Z.to_nat size) w;
  if (err =? EAGAIN) || (err =? EWOULDBLOCK)
  then
    (* EAGAIN means that we have non-blocking I/O but there was
       no data to be read. Nothing the client should care about. *)
    Some (0, store data vaddr, w1)
  else Some (if err =? 0 then len else - err, store data vaddr, w1).

Definition writeToParcel (t : tube) (reply : Parcel) (w : World)
  : Z * tube * Parcel * World :=
  if mReceiveFd t <? 0 then (- EINVAL, t, reply, w)
  else
    let '(result, reply', w1) := writeDupFileDescriptor (mReceiveFd t) reply w in
    let w2 := (close (mReceiveFd t) w1).2 in
    (result, set_mReceiveFd (-1) t, reply', w2).

(** How a call of the batch helpers ends: it returns, it aborts in
    [LOG_ALWAYS_FATAL_IF], or it divides by zero. *)
Inductive outcome :=
  | Returned (n : Z)
  | Aborted
  | DivisionByZero.

(** [a % b] and [a / b] of C++: undefined for [b = 0], truncating. *)
Definition c_rem (a b : Z) : option Z :=
  if b =? 0 then None else Some (Z.rem a b).

Definition c_quot (a b : Z) : option Z :=
  if b =? 0 then None else Some (Z.quot a b).

(** *** The conditions the contract speaks of, as states of the model *)

(** An interrupted call: the script makes it fail with EINTR. *)
Definition interrupted : fault := Refuse 4.

(** A script of interruptions only. *)
Definition interrupts (fs : list fault) : Prop :=
  Forall (λ f, f = interrupted) fs.

(** The world once a retry loop has sat out a script of interruptions. *)
Definition settle (w : World) : World :=
  match faults w with
  | [] => w
  | _ :: _ => set_errno EINTR (set_faults [] w)
  end.

(** Receiving would block: the descriptor is open, nothing is queued for
    its socket, and the peer is still there. *)
Definition no_message_pending (fd : Z) (w : World) : Prop :=
  exists e s p,
    lookup_fd fd w = Some e /\ socks w !! e = Some s /\ rx s = [] /\
    socks w !! peer e = Some p /\ refs p <> 0%nat /\ interrupts (faults w).

(** The peer is closed: as above, but no descriptor refers to the other
    end any more. *)
Definition peer_closed (fd : Z) (w : World) : Prop :=
  exists e s p,
    lookup_fd fd w = Some e /\ socks w !! e = Some s /\ rx s = [] /\
    socks w !! peer e = Some p /\ refs p = 0%nat /\ interrupts (faults w).

(** A real error: the descriptor is not open, or the call fails with an
    errno that is neither EINTR nor EAGAIN. *)
Definition real_error (fd : Z) (w : World) : Prop :=
  lookup_fd fd w = None \/
  (is_Some (lookup_fd fd w) /\
   exists k e rest,
     faults w = replicate k interrupted ++ Refuse e :: rest /\
     Z.pos e <> EINTR /\ Z.pos e <> EAGAIN).

(** Sending [data] would block: the datagram is no larger than the send
    buffer, but the bytes already queued at the peer leave no room. *)
Definition outbound_full (fd : Z) (data : list byte) (w : World) : Prop :=
  exists e s p,
    lookup_fd fd w = Some e /\ socks w !! e = Some s /\
    socks w !! peer e = Some p /\ refs p <> 0%nat /\
    Z.of_nat (length data) <= so_sndbuf s /\
    Z.min (so_sndbuf s) (so_rcvbuf p) < Z.of_nat (queued (rx p) + length data) /\
    interrupts (faults w).

(** The two descriptors are the ends of one socket pair: [fds] sends with
    a send buffer of [sb] bytes, [fdr] receives with a receive buffer of
    [rb] bytes, nothing is queued, and the transport is quiet. *)
Definition wired (w : World) (fdr fds : Z) (sb rb : Z) : Prop :=
  exists p sA sB,
    lookup_fd fds w = Some (p, true) /\
    lookup_fd fdr w = Some (p, false) /\
    socks w !! (p, true) = Some sB /\ socks w !! (p, false) = Some sA /\
    refs sA <> 0%nat /\ rx sA = [] /\
    so_sndbuf sB = sb /\ so_rcvbuf sA = rb /\ faults w = [].

Section Width.

(** The width of [size_t] and [ssize_t] in bits. *)
Variable wbits : positive.

Definition SIZE_MOD : Z := 2 ^ Z.pos wbits.
Definition SSIZE_MAX : Z := 2 ^ (Z.pos wbits - 1) - 1.

(** [count*objSize] in [size_t]. *)
Definition size_mul (a b : Z) : Z := (a * b) mod SIZE_MOD.

(** [static_cast<ssize_t>(objSize)]. *)
Definition to_ssize (x : Z) : Z :=
  let u := x mod SIZE_MOD in
  if u <=? SSIZE_MAX then u else u - SIZE_MOD.

(** The part [sendObjects] and [recvObjects] share: the fatal check and
    the return statement, on the result [size] of the raw transfer.
    [(size >= 0) && (size % objSize)] evaluates the remainder only when
    [size >= 0]; [size < 0 ? size : size / objSize] divides only then. *)
Definition records (size objSize : Z) : outcome :=
  let d := to_ssize objSize in
  let partial :=
    if 0 <=? size then (λ r, negb (r =? 0)) <$> c_rem size d
    else Some false in
  match partial with
  | None => DivisionByZero
  | Some true => Aborted
  | Some false =>
      if size <? 0 then Returned size
      else match c_quot size d with
           | Some q => Returned q
           | None => DivisionByZero
           end
  end.

Definition sendObjects (t : tube) (events : list byte) (count objSize : Z)
  (w : World) : option (outcome * World) :=
  '(size, w1) ← write t events (size_mul count objSize) w;
  Some (records size objSize, w1).

Definition recvObjects (t : tube) (events : list byte) (count objSize : Z)
  (w : World) : option (outcome * list byte * World) :=
  '(size, events', w1) ← read t events (size_mul count objSize) w;
  Some (records size objSize, events', w1).

(** A valid channel pair: the send descriptor of [ts] and the receive
    descriptor of [tr] are the two ends of one socket pair, the receive end
    is open with the datagrams [q] queued, [limit] is what the configured
    buffers admit, and the transport is quiet. *)
Definition connected (ts tr : tube) (w : World) (q : list (list byte))
  (limit : Z) : Prop :=
  exists p sA sB,
    lookup_fd (mSendFd ts) w = Some (p, true) /\
    lookup_fd (mReceiveFd tr) w = Some (p, false) /\
    socks w !! (p, true) = Some sB /\ socks w !! (p, false) = Some sA /\
    refs sA <> 0%nat /\ rx sA = q /\
    limit = Z.min (so_sndbuf sB) (so_rcvbuf sA) /\
    limit <= SSIZE_MAX /\ faults w = [].


End Width.

End BitTube.

(** ** include/input/InputEventLabels.h *)
Module InputEventLabels.

Record InputEventLabel := mkLabel {
  literal : option string;
  value : Z
}.

(** The entry [{ NULL, 0 }] that ends every table. *)
Definition END_OF_TABLE : InputEventLabel := mkLabel None 0.

(** The keys of [KEYCODES], in the order of the table. *)
Definition KEYCODE_NAMES : list string :=
  ["UNKNOWN"; "SOFT_LEFT"; "SOFT_RIGHT"; "HOME"; "BACK"; "CALL"; "ENDCALL";
   "0"; "1"; "2"; "3"; "4"; "5"; "6"; "7"; "8"; "9"; "STAR"; "POUND";
   "DPAD_UP"; "DPAD_DOWN"; "DPAD_LEFT"; "DPAD_RIGHT"; "DPAD_CENTER";
   "VOLUME_UP"; "VOLUME_DOWN"; "POWER"; "CAMERA"; "CLEAR"; "A"; "B"; "C"; "D";
   "E"; "F"; "G"; "H"; "I"; "J"; "K"; "L"; "M"; "N"; "O"; "P"; "Q"; "R"; "S";
   "T"; "U"; "V"; "W"; "X"; "Y"; "Z"; "COMMA"; "PERIOD"; "ALT_LEFT";
   "ALT_RIGHT"; "SHIFT_LEFT"; "SHIFT_RIGHT"; "TAB"; "SPACE"; "SYM";
   "EXPLORER"; "ENVELOPE"; "ENTER"; "DEL"; "GRAVE"; "MINUS"; "EQUALS";
   "LEFT_BRACKET"; "RIGHT_BRACKET"; "BACKSLASH"; "SEMICOLON"; "APOSTROPHE";
   "SLASH"; "AT"; "NUM"; "HEADSETHOOK"; "FOCUS"; "PLUS"; "MENU";
   "NOTIFICATION"; "SEARCH"; "MEDIA_PLAY_PAUSE"; "MEDIA_STOP"; "MEDIA_NEXT";
   "MEDIA_PREVIOUS"; "MEDIA_REWIND"; "MEDIA_FAST_FORWARD"; "MUTE"; "PAGE_UP";
   "PAGE_DOWN"; "PICTSYMBOLS"; "SWITCH_CHARSET"; "BUTTON_A"; "BUTTON_B";
   "BUTTON_C"; "BUTTON_X"; "BUTTON_Y"; "BUTTON_Z"; "BUTTON_L1"; "BUTTON_R1";
   "BUTTON_L2"; "BUTTON_R2"; "BUTTON_THUMBL"; "BUTTON_THUMBR"; "BUTTON_START";
   "BUTTON_SELECT"; "BUTTON_MODE"; "ESCAPE"; "FORWARD_DEL"; "CTRL_LEFT";
   "CTRL_RIGHT"; "CAPS_LOCK"; "SCROLL_LOCK"; "META_LEFT"; "META_RIGHT";
   "FUNCTION"; "SYSRQ"; "BREAK"; "MOVE_HOME"; "MOVE_END"; "INSERT"; "FORWARD";
   "MEDIA_PLAY"; "MEDIA_PAUSE"; "MEDIA_CLOSE"; "MEDIA_EJECT"; "MEDIA_RECORD";
   "F1"; "F2"; "F3"; "F4"; "F5"; "F6"; "F7"; "F8"; "F9"; "F10"; "F11"; "F12";
   "NUM_LOCK"; "NUMPAD_0"; "NUMPAD_1"; "NUMPAD_2"; "NUMPAD_3"; "NUMPAD_4";
   "NUMPAD_5"; "NUMPAD_6"; "NUMPAD_7"; "NUMPAD_8"; "NUMPAD_9";
   "NUMPAD_DIVIDE"; "NUMPAD_MULTIPLY"; "NUMPAD_SUBTRACT"; "NUMPAD_ADD";
   "NUMPAD_DOT"; "NUMPAD_COMMA"; "NUMPAD_ENTER"; "NUMPAD_EQUALS";
   "NUMPAD_LEFT_PAREN"; "NUMPAD_RIGHT_PAREN"; "VOLUME_MUTE"; "INFO";
   "CHANNEL_UP"; "CHANNEL_DOWN"; "ZOOM_IN"; "ZOOM_OUT"; "TV"; "WINDOW";
   "GUIDE"; "DVR"; "BOOKMARK"; "CAPTIONS"; "SETTINGS"; "TV_POWER"; "TV_INPUT";
   "STB_POWER"; "STB_INPUT"; "AVR_POWER"; "AVR_INPUT"; "PROG_RED";
   "PROG_GREEN"; "PROG_YELLOW"; "PROG_BLUE"; "APP_SWITCH"; "BUTTON_1";
   "BUTTON_2"; "BUTTON_3"; "BUTTON_4"; "BUTTON_5"; "BUTTON_6"; "BUTTON_7";
   "BUTTON_8"; "BUTTON_9"; "BUTTON_10"; "BUTTON_11"; "BUTTON_12"; "BUTTON_13";
   "BUTTON_14"; "BUTTON_15"; "BUTTON_16"; "LANGUAGE_SWITCH"; "MANNER_MODE";
   "3D_MODE"; "CONTACTS"; "CALENDAR"; "MUSIC"; "CALCULATOR";
   "ZENKAKU_HANKAKU"; "EISU"; "MUHENKAN"; "HENKAN"; "KATAKANA_HIRAGANA";
   "YEN"; "RO"; "KANA"; "ASSIST"; "BRIGHTNESS_DOWN"; "BRIGHTNESS_UP";
   "MEDIA_AUDIO_TRACK"; "SLEEP"; "WAKEUP"; "PAIRING"; "MEDIA_TOP_MENU"; "11";
   "12"; "LAST_CHANNEL"; "TV_DATA_SERVICE"; "VOICE_ASSIST";
   "TV_RADIO_SERVICE"; "TV_TELETEXT"; "TV_NUMBER_ENTRY";
   "TV_TERRESTRIAL_ANALOG"; "TV_TERRESTRIAL_DIGITAL"; "TV_SATELLITE";
   "TV_SATELLITE_BS"; "TV_SATELLITE_CS"; "TV_SATELLITE_SERVICE"; "TV_NETWORK";
   "TV_ANTENNA_CABLE"; "TV_INPUT_HDMI_1"; "TV_INPUT_HDMI_2";
   "TV_INPUT_HDMI_3"; "TV_INPUT_HDMI_4"; "TV_INPUT_COMPOSITE_1";
   "TV_INPUT_COMPOSITE_2"; "TV_INPUT_COMPONENT_1"; "TV_INPUT_COMPONENT_2";
   "TV_INPUT_VGA_1"; "TV_AUDIO_DESCRIPTION"; "TV_AUDIO_DESCRIPTION_MIX_UP";
   "TV_AUDIO_DESCRIPTION_MIX_DOWN"; "TV_ZOOM_MODE"; "TV_CONTENTS_MENU";
   "TV_MEDIA_CONTEXT_MENU"; "TV_TIMER_PROGRAMMING"; "HELP";
   "NAVIGATE_PREVIOUS"; "NAVIGATE_NEXT"; "NAVIGATE_IN"; "NAVIGATE_OUT";
   "MEDIA_SKIP_FORWARD"; "MEDIA_SKIP_BACKWARD"; "MEDIA_STEP_FORWARD";
   "MEDIA_STEP_BACKWARD"].

(** The axes of [AXES]. *)
Definition AXIS_NAMES : list string :=
  ["X"; "Y"; "PRESSURE"; "SIZE"; "TOUCH_MAJOR"; "TOUCH_MINOR"; "TOOL_MAJOR";
   "TOOL_MINOR"; "ORIENTATION"; "VSCROLL"; "HSCROLL"; "Z"; "RX"; "RY"; "RZ";
   "HAT_X"; "HAT_Y"; "LTRIGGER"; "RTRIGGER"; "THROTTLE"; "RUDDER"; "WHEEL";
   "GAS"; "BRAKE"; "DISTANCE"; "TILT"; "GENERIC_1"; "GENERIC_2"; "GENERIC_3";
   "GENERIC_4"; "GENERIC_5"; "GENERIC_6"; "GENERIC_7"; "GENERIC_8";
   "GENERIC_9"; "GENERIC_10"; "GENERIC_11"; "GENERIC_12"; "GENERIC_13";
   "GENERIC_14"; "GENERIC_15"; "GENERIC_16"].

(** The LEDs of [LEDS]. *)
Definition LED_NAMES : list string :=
  ["NUM_LOCK"; "CAPS_LOCK"; "SCROLL_LOCK"; "COMPOSE"; "KANA"; "SLEEP";
   "SUSPEND"; "MUTE"; "MISC"; "MAIL"; "CHARGING"; "CONTROLLER_1";
   "CONTROLLER_2"; "CONTROLLER_3"; "CONTROLLER_4"].

(** The policy flags of [FLAGS]. *)
Definition FLAG_NAMES : list string :=
  ["VIRTUAL"; "FUNCTION"; "GESTURE"; "WAKE"].

Section Constants.

(** The constants the macros paste a name onto: [AKEYCODE_##key] of
    [android/keycodes.h], [AMOTION_EVENT_AXIS_##axis], [ALED_##led] and
    [POLICY_FLAG_##flag] of [input/Input.h].  These headers are not among
    the sources, so the values are parameters. *)
Variable AKEYCODE : string -> Z.
Variable AMOTION_EVENT_AXIS : string -> Z.
Variable ALED : string -> Z.
Variable POLICY_FLAG : string -> Z.

Definition DEFINE_KEYCODE (key : string) : InputEventLabel :=
  mkLabel (Some key) (AKEYCODE key).
Definition DEFINE_AXIS (axis : string) : InputEventLabel :=
  mkLabel (Some axis) (AMOTION_EVENT_AXIS axis).
Definition DEFINE_LED (led : string) : InputEventLabel :=
  mkLabel (Some led) (ALED led).
Definition DEFINE_FLAG (flag : string) : InputEventLabel :=
  mkLabel (Some flag) (POLICY_FLAG flag).

Definition KEYCODES : list InputEventLabel :=
  (DEFINE_KEYCODE <$> KEYCODE_NAMES) ++ [END_OF_TABLE].
Definition AXES : list InputEventLabel :=
  (DEFINE_AXIS <$> AXIS_NAMES) ++ [END_OF_TABLE].
Definition LEDS : list InputEventLabel :=
  (DEFINE_LED <$> LED_NAMES) ++ [END_OF_TABLE].
Definition FLAGS : list InputEventLabel :=
  (DEFINE_FLAG <$> FLAG_NAMES) ++ [END_OF_TABLE].

End Constants.

(** The loops walk the array until an entry without a literal; [None] is
    a walk that leaves the array, which has no such entry. *)
Fixpoint lookupValueByLabel (name : string) (table : list InputEventLabel)
  : option Z :=
  match table with
  | [] => None
  | e :: rest =>
      match literal e with
      | Some l =>
          if String.eqb name l then Some (value e)
          else lookupValueByLabel name rest
      | None => Some (value e)
      end
  end.

(** [Some None] is the NULL result. *)
Fixpoint lookupLabelByValue (v : Z) (table : list InputEventLabel)
  : option (option string) :=
  match table with
  | [] => None
  | e :: rest =>
      match literal e with
      | Some l =>
          if (value e =? v)%Z then Some (Some l)
          else lookupLabelByValue v rest
      | None => Some None
      end
  end.

Definition to_uint32 (x : Z) : Z := x mod 2 ^ 32.

Section Lookups.

Variable AKEYCODE : string -> Z.
Variable AMOTION_EVENT_AXIS : string -> Z.
Variable ALED : string -> Z.
Variable POLICY_FLAG : string -> Z.

Definition getKeyCodeByLabel (label : string) : option Z :=
  lookupValueByLabel label (KEYCODES AKEYCODE).

(** [NULL] is [None]. *)
Definition getLabelByKeyCode (keyCode : Z) : option string :=
  if (0 <=? keyCode) && (keyCode <? Z.of_nat (length (KEYCODES AKEYCODE)))
  then e ← KEYCODES AKEYCODE !! Z.to_nat keyCode; literal e
  else None.

Definition getKeyFlagByLabel (label : string) : option Z :=
  to_uint32 <$> lookupValueByLabel label (FLAGS POLICY_FLAG).

Definition getAxisByLabel (label : string) : option Z :=
  lookupValueByLabel label (AXES AMOTION_EVENT_AXIS).

Definition getAxisLabel (axisId : Z) : option (option string) :=
  lookupLabelByValue axisId (AXES AMOTION_EVENT_AXIS).

Definition getLedByLabel (label : string) : option Z :=
  lookupValueByLabel label (LEDS ALED).

End Lookups.


Definition unmapped (code : Z) (table : list InputEventLabel) : Prop :=
  forall e, e ∈ table -> is_Some (literal e) -> value e <> code.

(** A table body: entries that all carry a literal. *)
Definition labelled (pre : list InputEventLabel) : Prop :=
  forall e, e ∈ pre -> is_Some (literal e).

(** A sample choice of constants for concrete runs: every name gets its
    position in the list of names (0 for a name that is not listed). *)
Definition sample_code (names : list string) (name : string) : Z :=
  from_option (λ p, Z.of_nat p.1) 0 (list_find (λ n, n = name) names).

End InputEventLabels.

(** ** Callers of the batch helpers *)
Module Drivers.
Import BitTube.
Section Width.
Variable wbits : positive.

(** A caller that sends batches one after the other, each [(events,
    count)] by one [sendObjects], and one that receives with the given
    counts, each time into a buffer with the contents [buffer]. *)
Fixpoint sendEach (t : tube) (batches : list (list byte * Z)) (objSize : Z)
  (w : World) : option (list outcome * World) :=
  match batches with
  | [] => Some ([], w)
  | (events, count) :: rest =>
      '(o, w1) ← sendObjects wbits t events count objSize w;
      '(os, w2) ← sendEach t rest objSize w1;
      Some (o :: os, w2)
  end.

Fixpoint recvEach (t : tube) (buffer : list byte) (counts : list Z)
  (objSize : Z) (w : World) : option (list (outcome * list byte) * World) :=
  match counts with
  | [] => Some ([], w)
  | count :: rest =>
      '(o, events, w1) ← recvObjects wbits t buffer count objSize w;
      '(os, w2) ← recvEach t buffer rest objSize w1;
      Some ((o, events) :: os, w2)
  end.

(** Every batch holds a positive number of whole records. *)
Definition whole (batches : list (list byte * Z)) (objSize : Z) : Prop :=
  Forall (λ b, 0 < b.2 /\ Z.of_nat (length b.1) = b.2 * objSize) batches.

End Width.
End Drivers.

(** ** Concrete runs *)
Module Scenario.
Import BitTube.

(** A process that has no descriptor open: RLIMIT_NOFILE is 1024, the
    transport is quiet, the build is not debuggable. *)
Definition boot : World := mkWorld ∅ 1024 ∅ ∅ 0 [] ∅ 1 1 ∅.

(** [BitTube()] in that process: the object and the world after it. *)
Definition pipe : tube * World := BitTube_default boot.

(** Three records of 64 bytes. *)
Definition batch : list byte :=
  replicate 64 "a"%byte ++ replicate 64 "b"%byte ++ replicate 64 "c"%byte.

(** A receive buffer of 256 bytes. *)
Definition buffer : list byte := replicate 256 "000"%byte.

(** The world after [write(batch, n)] on [pipe]. *)
Definition written (n : Z) : World :=
  match write pipe.1 batch n pipe.2 with
  | Some (_, w) => w
  | None => pipe.2
  end.

(** The world after the send descriptor of [pipe] is closed. *)
Definition hung_up : World := (close (mSendFd pipe.1) pipe.2).2.

(** The world after [n] datagrams of 1024 bytes were written to [pipe]. *)
Fixpoint filled (n : nat) : World :=
  match n with
  | O => pipe.2
  | S k =>
      match write pipe.1 (replicate 1024 "f"%byte) 1024 (filled k) with
      | Some (_, w) => w
      | None => filled k
      end
  end.

(** A message carrying a duplicate of the receive descriptor of [pipe],
    as [writeToParcel] builds it. *)
Definition carried : Z * tube * Parcel * World := writeToParcel pipe.1 [] pipe.2.


(** [pipe] with the next two calls interrupted. *)
Definition interrupted_twice : World :=
  set_faults [interrupted; interrupted] pipe.2.

(** Three batches of 64-byte records: one, two and one record. *)
Definition three_batches : list (list byte * Z) :=
  [(replicate 64 "a"%byte, 1); (replicate 128 "b"%byte, 2);
   (replicate 64 "c"%byte, 1)].

(** The object rebuilt from the message of [carried], and the world after. *)
Definition rebuilt : tube * World := BitTube_Parcel carried.1.2 carried.2.


(** The world after [three_batches] were sent on [pipe]. *)
Definition three_sent : World :=
  match Drivers.sendEach 32 pipe.1 three_batches 64 pipe.2 with
  | Some (_, w) => w
  | None => pipe.2
  end.


End Scenario.

(** * Facts

    From here on: what the definitions above satisfy.  [PosixFacts] and
    [DescriptorFacts] are about the model of the operating system; the
    rest is about the code. *)

Module PosixFacts.
Import Errno Posix.

Lemma lookup_fd_negative fd w : fd < 0 -> lookup_fd fd w = None.
Proof. intros H. unfold lookup_fd. case_decide; [lia | done]. Qed.

Lemma lookup_fd_Some_nonneg fd w e : lookup_fd fd w = Some e -> 0 <= fd.
Proof. unfold lookup_fd. case_decide; [done | discriminate]. Qed.

Lemma deliver_faults e data w : faults (deliver e data w).2 = faults w.
Proof. unfold deliver, fail. repeat case_match; reflexivity. Qed.

Lemma deliver_result e data w :
  0 <= (deliver e data w).1 \/
  ((deliver e data w).1 = -1 /\ errno (deliver e data w).2 <> EINTR
   /\ 0 < errno (deliver e data w).2).
Proof.
  unfold deliver, fail. repeat case_match; simpl; try (left; lia);
    right; repeat split; try done.
Qed.

Lemma fetch_faults e cap w : faults (fetch e cap w).2 = faults w.
Proof. unfold fetch. repeat case_match; reflexivity. Qed.

Lemma fetch_result e cap w :
  0 <= (fetch e cap w).1.1 \/
  ((fetch e cap w).1.1 = -1 /\ errno (fetch e cap w).2 <> EINTR
   /\ 0 < errno (fetch e cap w).2).
Proof.
  unfold fetch. repeat case_match; simpl; try (left; lia);
    right; repeat split; try done.
Qed.

(** A call of [send] never lengthens the script, and an interrupted call
    shortens it. *)
Lemma send_script fd data w :
  (length (faults (send fd data w).2) <= length (faults w))%nat /\
  ((send fd data w).1 < 0 -> errno (send fd data w).2 = EINTR ->
   (length (faults (send fd data w).2) < length (faults w))%nat).
Proof.
  unfold send. destruct (lookup_fd fd w) as [e|]; [|split; [done | discriminate]].
  unfold next_fault. destruct (faults w) as [|[n|n] fs] eqn:Hf.
  - rewrite deliver_faults, Hf. split; [done|]. intros Hneg Herr.
    destruct (deliver_result e data w) as [?|(_ & ? & _)]; [lia | done].
  - simpl. split; lia.
  - rewrite deliver_faults. simpl. split; lia.
Qed.

Lemma recv_script fd cap w :
  (length (faults (recv fd cap w).2) <= length (faults w))%nat /\
  ((recv fd cap w).1.1 < 0 -> errno (recv fd cap w).2 = EINTR ->
   (length (faults (recv fd cap w).2) < length (faults w))%nat).
Proof.
  unfold recv. destruct (lookup_fd fd w) as [e|]; [|split; [done | discriminate]].
  unfold next_fault. destruct (faults w) as [|[n|n] fs] eqn:Hf.
  - rewrite fetch_faults, Hf. split; [done|]. intros Hneg Herr.
    destruct (fetch_result e cap w) as [?|(_ & ? & _)]; [lia | done].
  - simpl. split; lia.
  - rewrite fetch_faults. simpl. split; lia.
Qed.

End PosixFacts.

Module LoopFacts.
Import Errno BitTube PosixFacts.

Lemma send_retry_total fuel fd data w :
  (length (faults w) < fuel)%nat -> is_Some (send_retry fuel fd data w).
Proof.
  revert w. induction fuel as [|k IH]; intros w Hk; [lia|].
  simpl. pose proof (send_script fd data w) as [Hle Hlt].
  destruct (send fd data w) as [len w1]; simpl in *.
  destruct (len <? 0) eqn:Hneg.
  - destruct (errno w1 =? EINTR) eqn:He; [|by eexists].
    apply IH. apply Z.ltb_lt in Hneg. apply Z.eqb_eq in He.
    specialize (Hlt Hneg He). lia.
  - by eexists.
Qed.

Lemma recv_retry_total fuel fd size w :
  (length (faults w) < fuel)%nat -> is_Some (recv_retry fuel fd size w).
Proof.
  revert w. induction fuel as [|k IH]; intros w Hk; [lia|].
  simpl. pose proof (recv_script fd size w) as [Hle Hlt].
  destruct (recv fd size w) as [[len data] w1]; simpl in *.
  destruct (len <? 0) eqn:Hneg.
  - destruct (errno w1 =? EINTR) eqn:He; [|by eexists].
    apply IH. apply Z.ltb_lt in Hneg. apply Z.eqb_eq in He.
    specialize (Hlt Hneg He). lia.
  - by eexists.
Qed.

(** [write] and [read] always return: the retry loops end. *)
Lemma write_total t vaddr size w : is_Some (write t vaddr size w).
Proof.
  unfold write.
  destruct (send_retry_total (rounds w) (mSendFd t) (take (Z.to_nat size) vaddr) w)
    as [[[len err] w1] ->]; [unfold rounds; lia|].
  by eexists.
Qed.

Lemma read_total t vaddr size w : is_Some (read t vaddr size w).
Proof.
  unfold read.
  destruct (recv_retry_total (rounds w) (mReceiveFd t) (Z.to_nat size) w)
    as [[[[len err] data] w1] ->]; [unfold rounds; lia|].
  simpl. case_match; by eexists.
Qed.

(** On a descriptor that is not open the first round fails with EBADF. *)
Lemma write_closed t vaddr size w :
  lookup_fd (mSendFd t) w = None ->
  write t vaddr size w = Some (- EBADF, set_errno EBADF w).
Proof.
  intros H. unfold write, rounds. simpl. unfold send. rewrite H. reflexivity.
Qed.

Lemma read_closed t vaddr size w :
  lookup_fd (mReceiveFd t) w = None ->
  read t vaddr size w = Some (- EBADF, vaddr, set_errno EBADF w).
Proof.
  intros H. unfold read, rounds. simpl. unfold recv. rewrite H. simpl.
  reflexivity.
Qed.

Lemma settle_interrupted fs w :
  faults w = interrupted :: fs ->
  settle (set_errno EINTR (set_faults fs w)) = settle w.
Proof.
  intros H. unfold settle. rewrite H. destruct w; simpl in *.
  destruct fs; reflexivity.
Qed.

Lemma lookup_fd_settle fd w : lookup_fd fd (settle w) = lookup_fd fd w.
Proof. unfold settle. by destruct (faults w). Qed.

Lemma socks_settle w : socks (settle w) = socks w.
Proof. unfold settle. by destruct (faults w). Qed.

Lemma faults_settle w : faults (settle w) = [].
Proof. unfold settle. by destruct (faults w) eqn:E. Qed.

(** A loop that meets interruptions only behaves as one round in the
    settled world. *)
Lemma send_retry_settle fd data w :
  is_Some (lookup_fd fd w) -> interrupts (faults w) ->
  send_retry (rounds w) fd data w = send_retry 1 fd data (settle w).
Proof.
  intros [e He] Hi. unfold rounds.
  remember (faults w) as fs eqn:Hfs. revert w He Hfs.
  induction Hi as [|f fs -> _ IH]; intros w He Hfs.
  - unfold settle. by rewrite <- Hfs.
  - rewrite <- (settle_interrupted fs w) by done.
    rewrite <- IH by done.
    change (length (interrupted :: fs)) with (S (length fs)).
    cbn [send_retry]. unfold send at 1. rewrite He. unfold next_fault.
    rewrite <- Hfs. reflexivity.
Qed.

Lemma recv_retry_settle fd size w :
  is_Some (lookup_fd fd w) -> interrupts (faults w) ->
  recv_retry (rounds w) fd size w = recv_retry 1 fd size (settle w).
Proof.
  intros [e He] Hi. unfold rounds.
  remember (faults w) as fs eqn:Hfs. revert w He Hfs.
  induction Hi as [|f fs -> _ IH]; intros w He Hfs.
  - unfold settle. by rewrite <- Hfs.
  - rewrite <- (settle_interrupted fs w) by done.
    rewrite <- IH by done.
    change (length (interrupted :: fs)) with (S (length fs)).
    cbn [recv_retry]. unfold recv at 1. rewrite He. unfold next_fault.
    rewrite <- Hfs. reflexivity.
Qed.

End LoopFacts.

Module RawFacts.
Import Errno BitTube PosixFacts LoopFacts.

Local Arguments Z.eqb : simpl never.

(** [write] on an open descriptor, interruptions apart: one [send]. *)
Lemma write_open t vaddr size w e :
  lookup_fd (mSendFd t) w = Some e -> interrupts (faults w) ->
  write t vaddr size w =
  Some (let r := deliver e (take (Z.to_nat size) vaddr) (settle w) in
        (if r.1 <? 0 then - errno r.2 else r.1, r.2)).
Proof.
  intros He Hi. unfold write. rewrite send_retry_settle by eauto.
  cbn [send_retry]. unfold send. rewrite lookup_fd_settle, He.
  unfold next_fault. rewrite faults_settle.
  pose proof (deliver_result e (take (Z.to_nat size) vaddr) (settle w)) as Hr.
  destruct (deliver e (take (Z.to_nat size) vaddr) (settle w)) as [len w1].
  simpl in *. destruct Hr as [Hr|(-> & Hne & Hpos)].
  - destruct (len <? 0) eqn:Hn; [apply Z.ltb_lt in Hn; lia|]. reflexivity.
  - simpl. apply Z.eqb_neq in Hne. rewrite Hne. simpl.
    destruct (errno w1 =? 0) eqn:H0; [apply Z.eqb_eq in H0; lia | reflexivity].
Qed.

(** [read] on an open descriptor, interruptions apart: one [recv], with
    EAGAIN turned into 0. *)
Lemma read_open t vaddr size w e :
  lookup_fd (mReceiveFd t) w = Some e -> interrupts (faults w) ->
  read t vaddr size w =
  Some (let r := fetch e (Z.to_nat size) (settle w) in
        (if r.1.1 <? 0
         then (if errno r.2 =? EAGAIN then 0 else - errno r.2)
         else r.1.1,
         store r.1.2 vaddr, r.2)).
Proof.
  intros He Hi. unfold read. rewrite recv_retry_settle by eauto.
  cbn [recv_retry]. unfold recv. rewrite lookup_fd_settle, He.
  unfold next_fault. rewrite faults_settle.
  pose proof (fetch_result e (Z.to_nat size) (settle w)) as Hr.
  destruct (fetch e (Z.to_nat size) (settle w)) as [[len data] w1].
  simpl in *. destruct Hr as [Hr|(-> & Hne & Hpos)].
  - destruct (len <? 0) eqn:Hn; [apply Z.ltb_lt in Hn; lia|]. reflexivity.
  - simpl. apply Z.eqb_neq in Hne. rewrite Hne. simpl.
    unfold EWOULDBLOCK. rewrite orb_diag.
    destruct (errno w1 =? EAGAIN); [reflexivity|].
    destruct (errno w1 =? 0) eqn:H0; [apply Z.eqb_eq in H0; lia | reflexivity].
Qed.

(** A call the script refuses, after [k] interruptions. *)
Lemma recv_retry_refused k e rest fd size ep :
  Z.pos e <> EINTR ->
  forall fuel w,
    lookup_fd fd w = Some ep ->
    faults w = replicate k interrupted ++ Refuse e :: rest ->
    (k < fuel)%nat ->
    recv_retry fuel fd size w =
    Some (-1, Z.pos e, [], set_errno (Z.pos e) (set_faults rest w)).
Proof.
  intros Hne. induction k as [|k IH]; intros fuel w Hfd Hf Hk;
    (destruct fuel as [|fuel]; [lia|]); cbn [recv_retry];
    unfold recv; rewrite Hfd; unfold next_fault; rewrite Hf; simpl.
  - apply Z.eqb_neq in Hne. rewrite Hne. reflexivity.
  - change (4 =? EINTR) with true. cbv iota.
    rewrite IH; [| exact Hfd | reflexivity | lia].
    destruct w; reflexivity.
Qed.

Lemma send_retry_refused k e rest fd data ep :
  Z.pos e <> EINTR ->
  forall fuel w,
    lookup_fd fd w = Some ep ->
    faults w = replicate k interrupted ++ Refuse e :: rest ->
    (k < fuel)%nat ->
    send_retry fuel fd data w =
    Some (-1, Z.pos e, set_errno (Z.pos e) (set_faults rest w)).
Proof.
  intros Hne. induction k as [|k IH]; intros fuel w Hfd Hf Hk;
    (destruct fuel as [|fuel]; [lia|]); cbn [send_retry];
    unfold send; rewrite Hfd; unfold next_fault; rewrite Hf; simpl.
  - apply Z.eqb_neq in Hne. rewrite Hne. reflexivity.
  - change (4 =? EINTR) with true. cbv iota.
    rewrite IH; [| exact Hfd | reflexivity | lia].
    destruct w; reflexivity.
Qed.

End RawFacts.

Module RecordFacts.
Import Errno BitTube.

Section Width.
Variable wbits : positive.

Abbreviation SIZE_MOD := (SIZE_MOD wbits).
Abbreviation SSIZE_MAX := (SSIZE_MAX wbits).
Abbreviation to_ssize := (to_ssize wbits).
Abbreviation records := (records wbits).

Lemma SIZE_MOD_split : SIZE_MOD = 2 * (SSIZE_MAX + 1).
Proof.
  unfold BitTube.SIZE_MOD, BitTube.SSIZE_MAX.
  replace (Z.pos wbits) with (Z.succ (Z.pos wbits - 1)) at 1 by lia.
  rewrite Z.pow_succ_r by lia. lia.
Qed.

Lemma SSIZE_MAX_nonneg : 0 <= SSIZE_MAX.
Proof.
  unfold BitTube.SSIZE_MAX.
  assert (0 < 2 ^ (Z.pos wbits - 1)) by (apply Z.pow_pos_nonneg; lia). lia.
Qed.

(** The cast keeps a size that [ssize_t] can hold. *)
Lemma to_ssize_small x : 0 <= x <= SSIZE_MAX -> to_ssize x = x.
Proof.
  intros H. unfold BitTube.to_ssize. pose proof SIZE_MOD_split.
  rewrite Z.mod_small by lia.
  destruct (x <=? SSIZE_MAX) eqn:E; [done | apply Z.leb_gt in E; lia].
Qed.

(** A larger size becomes negative. *)
Lemma to_ssize_large x :
  SSIZE_MAX < x < SIZE_MOD -> to_ssize x = x - SIZE_MOD.
Proof.
  intros H. unfold BitTube.to_ssize. pose proof SSIZE_MAX_nonneg.
  rewrite Z.mod_small by lia.
  destruct (x <=? SSIZE_MAX) eqn:E; [apply Z.leb_le in E; lia | done].
Qed.

(** The divisor is zero for the size 0 only. *)
Lemma to_ssize_nonzero x : 0 < x < SIZE_MOD -> to_ssize x <> 0.
Proof.
  intros H. destruct (Z_le_gt_dec x SSIZE_MAX).
  - rewrite to_ssize_small by lia. lia.
  - rewrite to_ssize_large by lia. lia.
Qed.

Lemma to_ssize_zero : to_ssize 0 = 0.
Proof. apply to_ssize_small. pose proof SSIZE_MAX_nonneg. lia. Qed.

(** A negative raw result is handed on as it is, whatever the size. *)
Lemma records_negative size objSize :
  size < 0 -> records size objSize = Returned size.
Proof.
  intros H. unfold BitTube.records.
  destruct (0 <=? size) eqn:E; [apply Z.leb_le in E; lia|].
  destruct (size <? 0) eqn:E'; [done | apply Z.ltb_ge in E'; lia].
Qed.

Lemma records_whole size objSize :
  0 < objSize <= SSIZE_MAX -> 0 <= size -> (objSize | size) ->
  records size objSize = Returned (size / objSize).
Proof.
  intros Ho Hs Hd. unfold BitTube.records, c_rem, c_quot.
  rewrite to_ssize_small by lia.
  destruct (0 <=? size) eqn:E; [|apply Z.leb_gt in E; lia].
  destruct (objSize =? 0) eqn:E0; [apply Z.eqb_eq in E0; lia|].
  simpl. rewrite Z.rem_mod_nonneg by lia.
  apply Z.mod_divide in Hd; [|lia]. rewrite Hd. simpl.
  destruct (size <? 0) eqn:E'; [apply Z.ltb_lt in E'; lia|].
  by rewrite Z.quot_div_nonneg by lia.
Qed.

Lemma records_partial size objSize :
  0 < objSize <= SSIZE_MAX -> 0 <= size -> ~ (objSize | size) ->
  records size objSize = Aborted.
Proof.
  intros Ho Hs Hd. unfold BitTube.records, c_rem, c_quot.
  rewrite to_ssize_small by lia.
  destruct (0 <=? size) eqn:E; [|apply Z.leb_gt in E; lia].
  destruct (objSize =? 0) eqn:E0; [apply Z.eqb_eq in E0; lia|].
  simpl. rewrite Z.rem_mod_nonneg by lia.
  destruct (size mod objSize =? 0) eqn:Em; [|done].
  apply Z.eqb_eq in Em. destruct Hd. apply Z.mod_divide; [lia | done].
Qed.

Lemma records_zero_divisor size : 0 <= size -> records size 0 = DivisionByZero.
Proof.
  intros Hs. unfold BitTube.records, c_rem. rewrite to_ssize_zero.
  destruct (0 <=? size) eqn:E; [done | apply Z.leb_gt in E; lia].
Qed.

Lemma records_defined size objSize :
  0 < objSize < SIZE_MOD -> records size objSize <> DivisionByZero.
Proof.
  intros Ho. pose proof (to_ssize_nonzero objSize Ho) as Hd.
  unfold BitTube.records, c_rem, c_quot.
  apply Z.eqb_neq in Hd. rewrite Hd.
  destruct (0 <=? size); simpl; repeat case_match; done.
Qed.

Lemma size_mul_small a b :
  0 <= a * b <= SSIZE_MAX -> size_mul wbits a b = a * b.
Proof.
  intros H. unfold size_mul. pose proof SIZE_MOD_split.
  apply Z.mod_small. lia.
Qed.

End Width.

End RecordFacts.

Module BatchFacts.
Import Errno BitTube PosixFacts LoopFacts RawFacts RecordFacts.

Section Width.
Variable wbits : positive.

Abbreviation SIZE_MOD := (SIZE_MOD wbits).
Abbreviation SSIZE_MAX := (SSIZE_MAX wbits).
Abbreviation to_ssize := (to_ssize wbits).
Abbreviation size_mul := (size_mul wbits).
Abbreviation records := (records wbits).
Abbreviation sendObjects := (sendObjects wbits).
Abbreviation recvObjects := (recvObjects wbits).

(** The helpers are the raw transfer followed by [records]. *)
Lemma sendObjects_write t events count objSize w size w' :
  write t events (size_mul count objSize) w = Some (size, w') ->
  sendObjects t events count objSize w = Some (records size objSize, w').
Proof. intros H. unfold BitTube.sendObjects. by rewrite H. Qed.

Lemma recvObjects_read t events count objSize w size events' w' :
  read t events (size_mul count objSize) w = Some (size, events', w') ->
  recvObjects t events count objSize w =
  Some (records size objSize, events', w').
Proof. intros H. unfold BitTube.recvObjects. by rewrite H. Qed.

Lemma sendObjects_total t events count objSize w :
  is_Some (sendObjects t events count objSize w).
Proof.
  destruct (write_total t events (size_mul count objSize) w) as [[size w'] H].
  rewrite (sendObjects_write _ _ _ _ _ _ _ H). by eexists.
Qed.

Lemma recvObjects_total t events count objSize w :
  is_Some (recvObjects t events count objSize w).
Proof.
  destruct (read_total t events (size_mul count objSize) w) as [[[size ev] w'] H].
  rewrite (recvObjects_read _ _ _ _ _ _ _ _ H). by eexists.
Qed.

(** C2. For a record size [0 < objSize <= SSIZE_MAX]: when the raw
    transfer of [sendObjects] or [recvObjects] returns a non-negative byte
    count that is not a multiple of [objSize], the helper aborts in
    [LOG_ALWAYS_FATAL_IF]; when the count is a multiple, it does not abort
    and returns the non-negative number of records. *)
Theorem boundary_check t events count objSize w :
  0 < objSize <= SSIZE_MAX ->
  (forall size w',
     write t events (size_mul count objSize) w = Some (size, w') ->
     0 <= size ->
     (~ (objSize | size) ->
      sendObjects t events count objSize w = Some (Aborted, w')) /\
     ((objSize | size) ->
      exists n, 0 <= n /\ n * objSize = size /\
        sendObjects t events count objSize w = Some (Returned n, w'))) /\
  (forall size events' w',
     read t events (size_mul count objSize) w = Some (size, events', w') ->
     0 <= size ->
     (~ (objSize | size) ->
      recvObjects t events count objSize w = Some (Aborted, events', w')) /\
     ((objSize | size) ->
      exists n, 0 <= n /\ n * objSize = size /\
        recvObjects t events count objSize w = Some (Returned n, events', w'))).
Proof.
  intros Ho. split.
  - intros size w' Hw Hs. rewrite (sendObjects_write _ _ _ _ _ _ _ Hw). split.
    + intros Hd. by rewrite records_partial.
    + intros Hd. exists (size / objSize). rewrite records_whole by done.
      destruct Hd as [k ->]. rewrite Z.div_mul by lia.
      split; [nia | done].
  - intros size ev w' Hr Hs. rewrite (recvObjects_read _ _ _ _ _ _ _ _ Hr). split.
    + intros Hd. by rewrite records_partial.
    + intros Hd. exists (size / objSize). rewrite records_whole by done.
      destruct Hd as [k ->]. rewrite Z.div_mul by lia.
      split; [nia | done].
Qed.

(** C9. With [objSize > 0] the divisor [static_cast<ssize_t>(objSize)] of
    the remainder and of the division is not zero, and neither helper
    ends in a division by zero; with [objSize = 0] the divisor is zero and
    every non-negative raw result runs into it. *)
Theorem divisor_nonzero :
  (forall objSize, 0 < objSize < SIZE_MOD -> to_ssize objSize <> 0) /\
  (forall t events count objSize w o w',
     0 < objSize < SIZE_MOD ->
     sendObjects t events count objSize w = Some (o, w') ->
     o <> DivisionByZero) /\
  (forall t events count objSize w o events' w',
     0 < objSize < SIZE_MOD ->
     recvObjects t events count objSize w = Some (o, events', w') ->
     o <> DivisionByZero) /\
  to_ssize 0 = 0 /\
  (forall t events count w size w',
     write t events (size_mul count 0) w = Some (size, w') -> 0 <= size ->
     sendObjects t events count 0 w = Some (DivisionByZero, w')) /\
  (forall t events count w size events' w',
     read t events (size_mul count 0) w = Some (size, events', w') -> 0 <= size ->
     recvObjects t events count 0 w = Some (DivisionByZero, events', w')).
Proof.
  split_and!.
  - apply to_ssize_nonzero.
  - intros t events count objSize w o w' Ho H.
    destruct (write_total t events (size_mul count objSize) w) as [[size w1] Hw].
    rewrite (sendObjects_write _ _ _ _ _ _ _ Hw) in H. simplify_eq.
    by apply records_defined.
  - intros t events count objSize w o ev w' Ho H.
    destruct (read_total t events (size_mul count objSize) w) as [[[size ev1] w1] Hr].
    rewrite (recvObjects_read _ _ _ _ _ _ _ _ Hr) in H. simplify_eq.
    by apply records_defined.
  - apply to_ssize_zero.
  - intros t events count w size w' Hw Hs.
    rewrite (sendObjects_write _ _ _ _ _ _ _ Hw). by rewrite records_zero_divisor.
  - intros t events count w size ev w' Hr Hs.
    rewrite (recvObjects_read _ _ _ _ _ _ _ _ Hr). by rewrite records_zero_divisor.
Qed.

End Width.
End BatchFacts.

Module ConditionFacts.
Import Errno BitTube PosixFacts LoopFacts RawFacts.

Local Arguments Z.eqb : simpl never.

Lemma read_idle t vaddr size w :
  no_message_pending (mReceiveFd t) w ->
  read t vaddr size w = Some (0, vaddr, set_errno EAGAIN (settle w)).
Proof.
  intros (e & s & p & He & Hs & Hq & Hp & Hr & Hi).
  rewrite (read_open _ _ _ _ e) by done.
  unfold fetch. rewrite socks_settle, Hs, Hq, Hp.
  destruct (decide (refs p = 0%nat)); [done|]. reflexivity.
Qed.

Lemma read_hangup t vaddr size w :
  peer_closed (mReceiveFd t) w ->
  read t vaddr size w = Some (0, vaddr, settle w).
Proof.
  intros (e & s & p & He & Hs & Hq & Hp & Hr & Hi).
  rewrite (read_open _ _ _ _ e) by done.
  unfold fetch. rewrite socks_settle, Hs, Hq, Hp.
  destruct (decide (refs p = 0%nat)); [|done]. reflexivity.
Qed.

Lemma read_failure t vaddr size w :
  real_error (mReceiveFd t) w ->
  exists r w', read t vaddr size w = Some (r, vaddr, w') /\ r < 0.
Proof.
  intros [Hc|([ep Hep] & k & e & rest & Hf & Hne & Hna)].
  - rewrite read_closed by done. by eexists _, _.
  - exists (- Z.pos e), (set_errno (Z.pos e) (set_faults rest w)).
    split; [|lia]. unfold read.
    rewrite (recv_retry_refused k e rest _ _ ep) by
      (try done; unfold rounds; rewrite Hf, length_app, length_replicate; simpl; lia).
    simpl. unfold EWOULDBLOCK. rewrite orb_diag.
    apply Z.eqb_neq in Hna. rewrite Hna.
    destruct (Z.pos e =? 0) eqn:H0; [apply Z.eqb_eq in H0; lia | reflexivity].
Qed.

Lemma write_full t vaddr size w :
  outbound_full (mSendFd t) (take (Z.to_nat size) vaddr) w ->
  write t vaddr size w = Some (- EAGAIN, set_errno EAGAIN (settle w)).
Proof.
  intros (e & s & p & He & Hs & Hp & Hr & Hfit & Hfull & Hi).
  rewrite (write_open _ _ _ _ e) by done.
  unfold deliver. rewrite socks_settle, Hs, Hp.
  destruct (decide (refs p = 0%nat)); [done|].
  destruct (decide (so_sndbuf s < _)); [lia|].
  unfold room. rewrite bool_decide_eq_false_2 by lia. reflexivity.
Qed.

End ConditionFacts.

Module ChannelFacts.
Import Errno BitTube PosixFacts LoopFacts RawFacts RecordFacts ConditionFacts BatchFacts.

Section Width.
Variable wbits : positive.

Abbreviation SIZE_MOD := (SIZE_MOD wbits).
Abbreviation SSIZE_MAX := (SSIZE_MAX wbits).
Abbreviation size_mul := (size_mul wbits).
Abbreviation records := (records wbits).
Abbreviation sendObjects := (sendObjects wbits).
Abbreviation recvObjects := (recvObjects wbits).
Abbreviation connected := (connected wbits).

Lemma records_nothing objSize :
  0 < objSize < SIZE_MOD -> records 0 objSize = Returned 0.
Proof.
  intros Ho. pose proof (to_ssize_nonzero wbits objSize Ho) as Hd.
  unfold BitTube.records, c_rem, c_quot.
  apply Z.eqb_neq in Hd. rewrite Hd. reflexivity.
Qed.

(** C3. With no message pending [recvObjects] returns 0 records (for a
    record size other than 0) and leaves the buffer alone; against a full
    outbound buffer [sendObjects] returns a negative code; and whenever
    [write] or [read] returns a negative code, the helper returns that
    code. *)
Theorem would_block_policy :
  (forall t events count objSize w,
     0 < objSize < SIZE_MOD ->
     no_message_pending (mReceiveFd t) w ->
     recvObjects t events count objSize w =
     Some (Returned 0, events, set_errno EAGAIN (settle w))) /\
  (forall t events count objSize w,
     outbound_full (mSendFd t)
       (take (Z.to_nat (size_mul count objSize)) events) w ->
     exists code, code < 0 /\
       sendObjects t events count objSize w =
       Some (Returned code, set_errno EAGAIN (settle w))) /\
  (forall t events count objSize w code w',
     write t events (size_mul count objSize) w = Some (code, w') ->
     code < 0 ->
     sendObjects t events count objSize w = Some (Returned code, w')) /\
  (forall t events count objSize w code events' w',
     read t events (size_mul count objSize) w = Some (code, events', w') ->
     code < 0 ->
     recvObjects t events count objSize w = Some (Returned code, events', w')).
Proof.
  split_and!.
  - intros t events count objSize w Ho Hidle.
    rewrite (recvObjects_read wbits _ _ _ _ _ _ _ _ (read_idle _ _ _ _ Hidle)).
    by rewrite records_nothing.
  - intros t events count objSize w Hfull. exists (- EAGAIN). split; [done|].
    rewrite (sendObjects_write wbits _ _ _ _ _ _ _ (write_full _ _ _ _ Hfull)).
    by rewrite records_negative.
  - intros t events count objSize w code w' Hw Hneg.
    rewrite (sendObjects_write wbits _ _ _ _ _ _ _ Hw).
    by rewrite records_negative.
  - intros t events count objSize w code ev w' Hr Hneg.
    rewrite (recvObjects_read wbits _ _ _ _ _ _ _ _ Hr).
    by rewrite records_negative.
Qed.

(** C10. The object built from a message has no send descriptor; [write]
    and [sendObjects] on it fail with EBADF, a negative code, and leave
    every socket queue as it was. *)
Theorem receive_only_tube data w events size count objSize w' :
  let t := (BitTube_Parcel data w).1 in
  mSendFd t = -1 /\
  write t events size w' = Some (- EBADF, set_errno EBADF w') /\
  sendObjects t events count objSize w' =
    Some (Returned (- EBADF), set_errno EBADF w') /\
  - EBADF < 0 /\
  socks (set_errno EBADF w') = socks w'.
Proof.
  intros t.
  assert (Hfd : mSendFd t = -1).
  { unfold t, BitTube_Parcel. destruct (dup _ w) as [fd w1].
    by destruct (fd <? 0). }
  assert (Hw : forall n, write t events n w' = Some (- EBADF, set_errno EBADF w')).
  { intros n. apply write_closed. rewrite Hfd. by apply lookup_fd_negative. }
  split_and!; try done.
  rewrite (sendObjects_write wbits _ _ _ _ _ _ _ (Hw _)).
  by rewrite records_negative.
Qed.

Lemma quiet_interrupts w : faults w = [] -> interrupts (faults w).
Proof. intros ->. constructor. Qed.

Lemma settle_quiet w : faults w = [] -> settle w = w.
Proof. intros H. unfold settle. by rewrite H. Qed.

(** Sending on a connected pair queues one datagram behind those that
    wait. *)
Lemma write_connected ts tr w q limit vaddr size :
  connected ts tr w q limit ->
  Z.of_nat (queued q + length (take (Z.to_nat size) vaddr)) <= limit ->
  exists w1,
    write ts vaddr size w =
      Some (Z.of_nat (length (take (Z.to_nat size) vaddr)), w1) /\
    connected ts tr w1 (q ++ [take (Z.to_nat size) vaddr]) limit.
Proof.
  intros (p & sA & sB & Hs & Hr & HB & HA & Hrefs & Hq & Hlim & Hmax & Hquiet) Hfit.
  set (data := take (Z.to_nat size) vaddr) in *.
  exists (set_socks (<[(p, false) := enqueue data sA]> (socks w)) w).
  split.
  - rewrite (write_open _ _ _ _ (p, true) Hs (quiet_interrupts _ Hquiet)).
    fold data. rewrite (settle_quiet _ Hquiet). unfold deliver.
    change (peer (p, true)) with (p, false). rewrite HB, HA.
    destruct (decide (refs sA = 0%nat)); [done|].
    destruct (decide (so_sndbuf sB < _)); [lia|].
    unfold room. rewrite bool_decide_eq_true_2 by (rewrite Hq; lia).
    simpl. destruct (Z.of_nat (length data) <? 0) eqn:E; [apply Z.ltb_lt in E; lia|].
    reflexivity.
  - exists p, (enqueue data sA), sB. split_and!; try done.
    + simpl. by rewrite lookup_insert_ne.
    + simpl. by rewrite lookup_insert_eq.
    + simpl. by rewrite Hq.
Qed.

(** Receiving on a connected pair takes the datagram at the head. *)
Lemma read_connected ts tr w m q limit vaddr size :
  connected ts tr w (m :: q) limit ->
  exists w1,
    read tr vaddr size w =
      Some (Z.of_nat (length (take (Z.to_nat size) m)),
            store (take (Z.to_nat size) m) vaddr, w1) /\
    connected ts tr w1 q limit.
Proof.
  intros (p & sA & sB & Hs & Hr & HB & HA & Hrefs & Hq & Hlim & Hmax & Hquiet).
  exists (set_socks (<[(p, false) := set_rx q sA]> (socks w)) w).
  split.
  - rewrite (read_open _ _ _ _ (p, false) Hr (quiet_interrupts _ Hquiet)).
    rewrite (settle_quiet _ Hquiet). unfold fetch. rewrite HA, Hq.
    simpl. destruct (Z.of_nat _ <? 0) eqn:E; [apply Z.ltb_lt in E; lia|].
    reflexivity.
  - exists p, (set_rx q sA), sB. split_and!; try done.
    + simpl. by rewrite lookup_insert_ne.
    + simpl. by rewrite lookup_insert_eq.
Qed.

Lemma sendObjects_connected ts tr w q limit events N S :
  connected ts tr w q limit -> 0 < N -> 0 < S ->
  Z.of_nat (length events) = N * S ->
  Z.of_nat (queued q) + N * S <= limit ->
  exists w1,
    sendObjects ts events N S w = Some (Returned N, w1) /\
    connected ts tr w1 (q ++ [events]) limit.
Proof.
  intros Hc HN HS Hlen Hfit.
  assert (Hmax : limit <= SSIZE_MAX) by (by destruct Hc as (?&?&?&?&?&?&?&?&?&?&?&?)).
  assert (Hsize : size_mul N S = N * S) by (apply size_mul_small; nia).
  assert (Htake : take (Z.to_nat (N * S)) events = events)
    by (apply take_ge; lia).
  destruct (write_connected ts tr w q limit events (N * S) Hc) as (w1 & Hw & Hc1).
  { rewrite Htake. lia. }
  rewrite Htake in Hw, Hc1. exists w1. split; [|done].
  rewrite <- Hsize in Hw. rewrite (sendObjects_write wbits _ _ _ _ _ _ _ Hw).
  rewrite records_whole; [| nia | lia | exists N; lia].
  by rewrite Hlen, Z.div_mul by lia.
Qed.

Lemma recvObjects_connected ts tr w m q limit buffer N S :
  connected ts tr w (m :: q) limit -> 0 < N -> 0 < S ->
  Z.of_nat (length m) = N * S -> N * S <= limit ->
  exists w2,
    recvObjects tr buffer N S w =
      Some (Returned N, m ++ drop (length m) buffer, w2) /\
    connected ts tr w2 q limit.
Proof.
  intros Hc HN HS Hlen Hfit.
  assert (Hmax : limit <= SSIZE_MAX) by (by destruct Hc as (?&?&?&?&?&?&?&?&?&?&?&?)).
  assert (Hsize : size_mul N S = N * S) by (apply size_mul_small; nia).
  assert (Htake : take (Z.to_nat (N * S)) m = m) by (apply take_ge; lia).
  destruct (read_connected ts tr w m q limit buffer (N * S) Hc) as (w2 & Hr & Hc2).
  rewrite Htake in Hr. exists w2. split; [|done].
  rewrite <- Hsize in Hr. rewrite (recvObjects_read wbits _ _ _ _ _ _ _ _ Hr).
  rewrite records_whole; [| nia | lia | exists N; lia].
  by rewrite Hlen, Z.div_mul by lia.
Qed.

(** C1. On a valid pair with nothing queued, [N > 0] records of [S > 0]
    bytes with [N * S] within the buffer limit: [sendObjects] returns [N]
    and leaves the batch queued as one datagram; one [recvObjects] with the
    same [N] and [S] then returns [N] and puts the very bytes sent at the
    start of the buffer, leaving the queue empty again. *)
Theorem round_trip ts tr w limit events buffer N S :
  connected ts tr w [] limit ->
  0 < N -> 0 < S -> N * S <= limit ->
  Z.of_nat (length events) = N * S ->
  exists w1 w2,
    sendObjects ts events N S w = Some (Returned N, w1) /\
    connected ts tr w1 [events] limit /\
    recvObjects tr buffer N S w1 =
      Some (Returned N, events ++ drop (length events) buffer, w2) /\
    connected ts tr w2 [] limit.
Proof.
  intros Hc HN HS Hfit Hlen.
  destruct (sendObjects_connected ts tr w [] limit events N S)
    as (w1 & Hsend & Hc1); try done.
  destruct (recvObjects_connected ts tr w1 events [] limit buffer N S)
    as (w2 & Hrecv & Hc2); try done.
  by exists w1, w2.
Qed.

(** Two batches sent one after the other are received in the order sent,
    each by one call. *)
Lemma round_trip_in_order ts tr w limit e1 e2 buffer N1 N2 S :
  connected ts tr w [] limit ->
  0 < N1 -> 0 < N2 -> 0 < S -> N1 * S + N2 * S <= limit ->
  Z.of_nat (length e1) = N1 * S -> Z.of_nat (length e2) = N2 * S ->
  exists w1 w2 w3 w4,
    sendObjects ts e1 N1 S w = Some (Returned N1, w1) /\
    sendObjects ts e2 N2 S w1 = Some (Returned N2, w2) /\
    recvObjects tr buffer N1 S w2 =
      Some (Returned N1, e1 ++ drop (length e1) buffer, w3) /\
    recvObjects tr (e1 ++ drop (length e1) buffer) N2 S w3 =
      Some (Returned N2, e2 ++ drop (length e2) (e1 ++ drop (length e1) buffer), w4) /\
    connected ts tr w4 [] limit.
Proof.
  intros Hc H1 H2 HS Hfit Hl1 Hl2.
  destruct (sendObjects_connected ts tr w [] limit e1 N1 S)
    as (w1 & Hs1 & Hc1); try done; [simpl; nia|].
  destruct (sendObjects_connected ts tr w1 [e1] limit e2 N2 S)
    as (w2 & Hs2 & Hc2); try done; [simpl; lia|].
  destruct (recvObjects_connected ts tr w2 e1 [e2] limit buffer N1 S)
    as (w3 & Hr1 & Hc3); try done; [nia|].
  destruct (recvObjects_connected ts tr w3 e2 [] limit
              (e1 ++ drop (length e1) buffer) N2 S)
    as (w4 & Hr2 & Hc4); try done; [nia|].
  by exists w1, w2, w3, w4.
Qed.

End Width.
End ChannelFacts.

Module DescriptorFacts.
Import Errno Posix PosixFacts.

Lemma lookup_fd_of_nat n w : lookup_fd (Z.of_nat n) w = fdtab w !! n.
Proof.
  unfold lookup_fd. case_decide; [by rewrite Nat2Z.id | lia].
Qed.

Lemma lookup_fd_Some fd w e :
  lookup_fd fd w = Some e -> fd = Z.of_nat (Z.to_nat fd) /\ fdtab w !! Z.to_nat fd = Some e.
Proof.
  unfold lookup_fd. case_decide; [|discriminate]. intros Hl. split; [lia | done].
Qed.

Lemma alloc_fd_free w n : alloc_fd w = Some n -> fdtab w !! n = None.
Proof.
  unfold alloc_fd. intros H. apply find_some in H as [_ H].
  unfold fd_free in H. by destruct (fdtab w !! n).
Qed.

Lemma next_fault_fdtab w : fdtab (next_fault w).2 = fdtab w.
Proof. unfold next_fault. by destruct (faults w). Qed.

Lemma next_fault_socks w : socks (next_fault w).2 = socks w.
Proof. unfold next_fault. by destruct (faults w). Qed.

(** [dup] fails with a positive errno and changes no descriptor, or
    returns a descriptor that was free and now refers to the same socket
    end as the one duplicated. *)
Lemma dup_result fd w :
  ((dup fd w).1 = -1 /\ 0 < errno (dup fd w).2 /\
   fdtab (dup fd w).2 = fdtab w) \/
  (exists n e,
     (dup fd w).1 = Z.of_nat n /\ lookup_fd fd w = Some e /\
     fdtab w !! n = None /\
     fdtab (dup fd w).2 = <[n := e]> (fdtab w)).
Proof.
  unfold dup. destruct (lookup_fd fd w) as [e|] eqn:He; [|left; by split_and!].
  pose proof (next_fault_fdtab w) as Hfd.
  destruct (next_fault w) as [[[k|k]|] w1] eqn:Hn; simpl in Hfd.
  - left. simpl. split_and!; [done | lia | done].
  - destruct (alloc_fd w1) as [n|] eqn:Ha.
    + right. exists n, e. simpl. rewrite <- Hfd.
      split_and!; try done. by apply alloc_fd_free.
    + left. by split_and!.
  - destruct (alloc_fd w1) as [n|] eqn:Ha.
    + right. exists n, e. simpl. rewrite <- Hfd.
      split_and!; try done. by apply alloc_fd_free.
    + left. by split_and!.
Qed.

(** [close] leaves the descriptor closed and the others as they were. *)
Lemma close_fdtab fd w :
  fdtab (close fd w).2 =
  if decide (0 <= fd) then delete (Z.to_nat fd) (fdtab w) else fdtab w.
Proof.
  unfold close. destruct (lookup_fd fd w) as [e|] eqn:He.
  - apply lookup_fd_Some_nonneg in He. by rewrite decide_True.
  - simpl. case_decide; [|done]. unfold lookup_fd in He.
    rewrite decide_True in He by done. by rewrite delete_id.
Qed.

Lemma close_closed fd w : lookup_fd fd (close fd w).2 = None.
Proof.
  unfold lookup_fd. case_decide; [|done].
  rewrite close_fdtab, decide_True by done. apply lookup_delete_eq.
Qed.

Lemma close_other fd fd' w :
  fd <> fd' -> lookup_fd fd' (close fd w).2 = lookup_fd fd' w.
Proof.
  intros Hne. unfold lookup_fd. case_decide; [|done].
  rewrite close_fdtab. case_decide; [|done].
  apply lookup_delete_ne. lia.
Qed.

(** [socketpair] returns 0, or -1 with a positive errno. *)
Lemma socketpair_result w :
  ((socketpair w).1.1 = 0 /\
   0 <= (socketpair w).1.2.1 /\ 0 <= (socketpair w).1.2.2) \/
  ((socketpair w).1.1 = -1 /\ 0 < errno (socketpair w).2).
Proof.
  unfold socketpair. destruct (next_fault w) as [[[k|k]|] w1];
    repeat case_match; simpl; try (right; split; [done | lia]; fail);
    try (right; by split); left; split_and!; lia.
Qed.

End DescriptorFacts.

Module ConstructionFacts.
Import Errno BitTube PosixFacts DescriptorFacts.

(** Changes of a socket end that keep the wiring: any change that keeps
    queue, reference count and buffer sizes; a new receive buffer size at
    the receiving end; a new send buffer size at the sending end. *)
Lemma wired_neutral w fdr fds sb rb e (g : sock -> sock) :
  wired w fdr fds sb rb ->
  (forall s, rx (g s) = rx s) -> (forall s, refs (g s) = refs s) ->
  (forall s, so_sndbuf (g s) = so_sndbuf s) ->
  (forall s, so_rcvbuf (g s) = so_rcvbuf s) ->
  wired (set_socks (alter g e (socks w)) w) fdr fds sb rb.
Proof.
  intros (p & sA & sB & Hs & Hr & HB & HA & Hrefs & Hq & Hsb & Hrb & Hquiet)
    Hrx Hrf Hsnd Hrcv.
  exists p, (if decide (e = (p, false)) then g sA else sA),
    (if decide (e = (p, true)) then g sB else sB).
  split_and!; try done.
  - simpl. rewrite lookup_alter. case_decide; [subst e; by rewrite HB | done].
  - simpl. rewrite lookup_alter. case_decide; [subst e; by rewrite HA | done].
  - case_decide; [by rewrite Hrf | done].
  - case_decide; [by rewrite Hrx | done].
  - case_decide; [by rewrite Hsnd | done].
  - case_decide; [by rewrite Hrcv | done].
Qed.

Lemma wired_receiver w fdr fds sb rb (g : sock -> sock) rb' :
  wired w fdr fds sb rb ->
  (forall s, rx (g s) = rx s) -> (forall s, refs (g s) = refs s) ->
  (forall s, so_rcvbuf s = rb -> so_rcvbuf (g s) = rb') ->
  exists e, lookup_fd fdr w = Some e /\
    wired (set_socks (alter g e (socks w)) w) fdr fds sb rb'.
Proof.
  intros (p & sA & sB & Hs & Hr & HB & HA & Hrefs & Hq & Hsb & Hrb & Hquiet)
    Hrx Hrf Hrcv.
  exists (p, false). split; [done|].
  exists p, (g sA), sB. split_and!; try done.
  - simpl. by rewrite lookup_alter_ne, HB.
  - simpl. by rewrite lookup_alter_eq, HA.
  - by rewrite Hrf.
  - by rewrite Hrx.
  - by apply Hrcv.
Qed.

Lemma wired_sender w fdr fds sb rb (g : sock -> sock) sb' :
  wired w fdr fds sb rb ->
  (forall s, so_sndbuf s = sb -> so_sndbuf (g s) = sb') ->
  exists e, lookup_fd fds w = Some e /\
    wired (set_socks (alter g e (socks w)) w) fdr fds sb' rb.
Proof.
  intros (p & sA & sB & Hs & Hr & HB & HA & Hrefs & Hq & Hsb & Hrb & Hquiet) Hsnd.
  exists (p, true). split; [done|].
  exists p, sA, (g sB). split_and!; try done.
  - simpl. by rewrite lookup_alter_eq, HB.
  - simpl. by rewrite lookup_alter_ne, HA.
  - by apply Hsnd.
Qed.

(** What [setsockopt] does to the wiring, at either end. *)
Lemma setsockopt_receiver w fdr fds sb rb o v :
  wired w fdr fds sb rb ->
  wired (setsockopt fdr o v w).2 fdr fds sb
    (match o with SO_RCVBUF => v | SO_SNDBUF => rb end).
Proof.
  intros H. unfold setsockopt.
  destruct (wired_receiver w fdr fds sb rb
              (match o with SO_SNDBUF => set_sndbuf v | SO_RCVBUF => set_rcvbuf v end)
              (match o with SO_RCVBUF => v | SO_SNDBUF => rb end) H)
    as (e & -> & Hw); by destruct o.
Qed.

Lemma setsockopt_sender w fdr fds sb rb o v :
  wired w fdr fds sb rb ->
  wired (setsockopt fds o v w).2 fdr fds
    (match o with SO_SNDBUF => v | SO_RCVBUF => sb end) rb.
Proof.
  intros H. unfold setsockopt.
  destruct (wired_sender w fdr fds sb rb
              (match o with SO_SNDBUF => set_sndbuf v | SO_RCVBUF => set_rcvbuf v end)
              (match o with SO_SNDBUF => v | SO_RCVBUF => sb end) H)
    as (e & -> & Hw); by destruct o.
Qed.

Lemma wired_errno w fdr fds sb rb e :
  wired w fdr fds sb rb -> wired (set_errno e w) fdr fds sb rb.
Proof. intros (p & sA & sB & H). by exists p, sA, sB. Qed.

Lemma wired_bound w fdr fds sb rb b :
  wired w fdr fds sb rb -> wired (set_bound b w) fdr fds sb rb.
Proof. intros (p & sA & sB & H). by exists p, sA, sB. Qed.

Lemma fcntl_wired w fdr fds sb rb fd :
  wired w fdr fds sb rb -> wired (fcntl_nonblock fd w).2 fdr fds sb rb.
Proof.
  intros H. unfold fcntl_nonblock. destruct (lookup_fd fd w).
  - by apply wired_neutral.
  - by apply wired_errno.
Qed.

Lemma bind_wired w fdr fds sb rb fd name :
  wired w fdr fds sb rb -> wired (bind fd name w).2 fdr fds sb rb.
Proof.
  intros H. unfold bind, fail. repeat case_match; simpl;
    try (by apply wired_errno).
  apply wired_bound. by apply wired_neutral.
Qed.

Lemma setSocketName_wired w fdr fds sb rb s0 s1 :
  wired w fdr fds sb rb -> wired (setSocketName s0 s1 w) fdr fds sb rb.
Proof.
  intros H. unfold setSocketName.
  destruct (0 <=? s0), (0 <=? s1); repeat apply bind_wired; done.
Qed.

(** A successful [socketpair] in a quiet world wires its two descriptors
    with buffers of the default size. *)
Lemma socketpair_wired w :
  faults w = [] -> (socketpair w).1.1 = 0 ->
  wired (socketpair w).2 (socketpair w).1.2.1 (socketpair w).1.2.2
    default_bufsize default_bufsize.
Proof.
  intros Hquiet. unfold socketpair, next_fault. rewrite Hquiet.
  destruct (alloc_fd w) as [a|] eqn:Ha; [|done].
  destruct (alloc_fd (set_fdtab _ w)) as [b|] eqn:Hb; [|done].
  intros _. simpl.
  apply alloc_fd_free in Hb. simpl in Hb.
  assert (Hab : a <> b) by (intros ->; by rewrite lookup_insert_eq in Hb).
  exists (fresh_pair w), new_sock, new_sock.
  rewrite !lookup_fd_of_nat. simpl.
  split_and!; try done.
  - by rewrite lookup_insert_eq.
  - by rewrite lookup_insert_ne, lookup_insert_eq.
  - by rewrite lookup_insert_eq.
  - by rewrite lookup_insert_ne, lookup_insert_eq.
Qed.

(** [init] in a quiet world in which [socketpair] succeeds: the object
    holds the two ends of one pair, configured with the sizes asked for. *)
Lemma init_wired rcvbuf sndbuf t w :
  faults w = [] -> (socketpair w).1.1 = 0 ->
  wired (init rcvbuf sndbuf t w).2
    (mReceiveFd (init rcvbuf sndbuf t w).1)
    (mSendFd (init rcvbuf sndbuf t w).1) sndbuf rcvbuf.
Proof.
  intros Hquiet Hok. pose proof (socketpair_wired w Hquiet Hok) as H0.
  unfold init. destruct (socketpair w) as [[r [s0 s1]] w0].
  cbn [fst snd] in *. subst r. change (0 =? 0) with true. cbv iota.
  pose proof (setsockopt_receiver _ _ _ _ _ SO_RCVBUF rcvbuf H0) as H1.
  pose proof (setsockopt_sender _ _ _ _ _ SO_SNDBUF sndbuf H1) as H2.
  pose proof (setsockopt_receiver _ _ _ _ _ SO_SNDBUF
                  DEFAULT_SOCKET_BUFFER_SIZE H2) as H3.
  pose proof (setsockopt_sender _ _ _ _ _ SO_RCVBUF
                  DEFAULT_SOCKET_BUFFER_SIZE H3) as H4.
  cbv beta iota in H4.
  pose proof (fcntl_wired _ _ _ _ _ s0 H4) as H5.
  pose proof (fcntl_wired _ _ _ _ _ s1 H5) as H6.
  destruct (String.eqb _ _); cbn [fst snd mReceiveFd mSendFd].
  - apply setSocketName_wired. exact H6.
  - exact H6.
Qed.

Section Width.
Variable wbits : positive.

Lemma wired_connected w ts tr sb rb :
  wired w (mReceiveFd tr) (mSendFd ts) sb rb ->
  Z.min sb rb <= SSIZE_MAX wbits ->
  connected wbits ts tr w [] (Z.min sb rb).
Proof.
  intros (p & sA & sB & Hs & Hr & HB & HA & Hrefs & Hq & Hsb & Hrb & Hquiet) Hmax.
  exists p, sA, sB. split_and!; try done. by rewrite Hsb, Hrb.
Qed.

(** In the model, where [setsockopt] grants the size asked for,
    [BitTube(bufsize)] makes a valid pair whose limit is [bufsize]. *)
Lemma BitTube_bufsize_connected bufsize w :
  faults w = [] -> (socketpair w).1.1 = 0 -> bufsize <= SSIZE_MAX wbits ->
  connected wbits (BitTube_bufsize bufsize w).1 (BitTube_bufsize bufsize w).1
    (BitTube_bufsize bufsize w).2 [] bufsize.
Proof.
  intros Hquiet Hok Hmax.
  pose proof (init_wired bufsize bufsize (mkTube (-1) (-1)) w Hquiet Hok) as Hw.
  pose proof (wired_connected _ _ _ _ _ Hw) as Hc.
  rewrite Z.min_id in Hc. exact (Hc Hmax).
Qed.

End Width.

End ConstructionFacts.

Module Lifecycle.
Import Errno BitTube PosixFacts LoopFacts RawFacts ConditionFacts DescriptorFacts.

Lemma initCheck_spec t : initCheck t = NO_ERROR <-> 0 <= mReceiveFd t.
Proof.
  unfold initCheck, NO_ERROR. destruct (mReceiveFd t <? 0) eqn:E.
  - apply Z.ltb_lt in E. lia.
  - apply Z.ltb_ge in E. tauto.
Qed.

Lemma initCheck_negative t : mReceiveFd t < 0 -> initCheck t = mReceiveFd t.
Proof.
  intros H. unfold initCheck.
  destruct (mReceiveFd t <? 0) eqn:E; [done | apply Z.ltb_ge in E; lia].
Qed.

(** C6. [initCheck] returns [NO_ERROR] exactly when the receive
    descriptor is valid.  When [socketpair] fails, [init] returns (it has
    no fatal path) with the negated errno in place of the receive
    descriptor, which [initCheck] then reports, and the send descriptor is
    left as it was; when it succeeds, [initCheck] reports [NO_ERROR]. *)
Theorem init_check :
  (forall t, initCheck t = NO_ERROR <-> 0 <= mReceiveFd t) /\
  (forall rcvbuf sndbuf t w,
     (socketpair w).1.1 <> 0 ->
     let r := init rcvbuf sndbuf t w in
     r.2 = (socketpair w).2 /\
     0 < errno r.2 /\
     mReceiveFd r.1 = - errno r.2 /\
     initCheck r.1 = - errno r.2 /\
     initCheck r.1 <> NO_ERROR /\
     mSendFd r.1 = mSendFd t) /\
  (forall bufsize w,
     (socketpair w).1.1 <> 0 ->
     let r := BitTube_bufsize bufsize w in
     mSendFd r.1 = -1 /\ initCheck r.1 = - errno r.2 /\ initCheck r.1 < 0) /\
  (forall rcvbuf sndbuf t w,
     (socketpair w).1.1 = 0 ->
     initCheck (init rcvbuf sndbuf t w).1 = NO_ERROR).
Proof.
  assert (Hfail : forall rcvbuf sndbuf t w,
     (socketpair w).1.1 <> 0 ->
     let r := init rcvbuf sndbuf t w in
     r.2 = (socketpair w).2 /\
     0 < errno r.2 /\
     mReceiveFd r.1 = - errno r.2 /\
     initCheck r.1 = - errno r.2 /\
     initCheck r.1 <> NO_ERROR /\
     mSendFd r.1 = mSendFd t).
  { intros rcvbuf sndbuf t w Hne. unfold init.
    destruct (socketpair_result w) as [(H0 & _)|(Hr & Herr)]; [done|].
    destruct (socketpair w) as [[r [s0 s1]] w0]. simpl in *. subst r.
    simpl. rewrite initCheck_negative by (simpl; lia).
    unfold NO_ERROR. simpl. split_and!; try done; lia. }
  split_and!.
  - apply initCheck_spec.
  - exact Hfail.
  - intros bufsize w Hne. unfold BitTube_bufsize.
    destruct (Hfail bufsize bufsize (mkTube (-1) (-1)) w Hne)
      as (_ & Hpos & _ & Hic & _ & Hs).
    split_and!; [done | done | lia].
  - intros rcvbuf sndbuf t w H0. apply initCheck_spec. unfold init.
    destruct (socketpair_result w) as [(_ & Ha & Hb)|(Hr & _)]; [|lia].
    destruct (socketpair w) as [[r [s0 s1]] w0]. simpl in *. subst r.
    simpl. by destruct (String.eqb _ _).
Qed.

(** C5. The object built from a message has no send descriptor.  Its
    receive descriptor is a duplicate of the one in the message: a
    descriptor that was free, different from the one duplicated, referring
    to the same socket end, and still open after the original is closed.
    When [dup] fails, the negated errno stands in place of the receive
    descriptor and [initCheck] returns it: the object is invalid. *)
Theorem construct_from_parcel data w :
  let fd0 := (readFileDescriptor data).1 in
  let t := (BitTube_Parcel data w).1 in
  let w' := (BitTube_Parcel data w).2 in
  mSendFd t = -1 /\ w' = (dup fd0 w).2 /\
  ((dup fd0 w).1 < 0 ->
   0 < errno w' /\ mReceiveFd t = - errno w' /\
   initCheck t = - errno w' /\ initCheck t <> NO_ERROR) /\
  (0 <= (dup fd0 w).1 ->
   mReceiveFd t = (dup fd0 w).1 /\ initCheck t = NO_ERROR /\
   mReceiveFd t <> fd0 /\
   lookup_fd (mReceiveFd t) w = None /\
   is_Some (lookup_fd fd0 w) /\
   lookup_fd (mReceiveFd t) w' = lookup_fd fd0 w /\
   lookup_fd fd0 w' = lookup_fd fd0 w /\
   lookup_fd (mReceiveFd t) (close fd0 w').2 = lookup_fd fd0 w).
Proof.
  intros fd0 t w'. unfold t, w', BitTube_Parcel. fold fd0.
  pose proof (dup_result fd0 w) as Hd.
  destruct (dup fd0 w) as [fd w1]. simpl in *.
  destruct Hd as [(-> & Hpos & Htab)|(n & e & -> & He & Hfree & Htab)].
  - simpl. split_and!; try done.
    intros _. rewrite initCheck_negative by (simpl; lia).
    unfold NO_ERROR. simpl. split_and!; try done; lia.
  - destruct (Z.of_nat n <? 0) eqn:E; [apply Z.ltb_lt in E; lia|].
    simpl. split_and!; try done; [lia|]. intros _.
    apply lookup_fd_Some in He as Hfd0. destruct Hfd0 as [Hfd0 Hl0].
    assert (Hne : Z.of_nat n <> fd0).
    { intros Heq. rewrite <- Heq, Nat2Z.id in Hl0. congruence. }
    assert (Hnew : lookup_fd (Z.of_nat n) w1 = Some e).
    { by rewrite lookup_fd_of_nat, Htab, lookup_insert_eq. }
    assert (Hold : lookup_fd fd0 w1 = Some e).
    { rewrite Hfd0, lookup_fd_of_nat, Htab, lookup_insert_ne by lia. done. }
    split_and!; try done.
    + by apply initCheck_spec; simpl; lia.
    + by rewrite lookup_fd_of_nat.
    + by rewrite Hnew.
    + by rewrite Hold.
    + rewrite close_other by done. by rewrite Hnew.
Qed.

(** C4. Without a valid receive descriptor [writeToParcel] returns
    [-EINVAL] and changes nothing.  With one, it returns what
    [writeDupFileDescriptor] returned and leaves the message as that call
    left it, closes the receive descriptor and puts -1 in its place: the
    send descriptor is kept, [initCheck] no longer reports [NO_ERROR], and
    [read] fails with EBADF.  When the result is [NO_ERROR] the message
    holds one more descriptor, a duplicate that is still open on the same
    socket end. *)
Theorem serialize t reply w :
  (mReceiveFd t < 0 -> writeToParcel t reply w = (- EINVAL, t, reply, w)) /\
  (0 <= mReceiveFd t ->
   let r := writeDupFileDescriptor (mReceiveFd t) reply w in
   let '(result, t', reply', w') := writeToParcel t reply w in
   result = r.1.1 /\ reply' = r.1.2 /\
   w' = (close (mReceiveFd t) r.2).2 /\
   mReceiveFd t' = -1 /\ mSendFd t' = mSendFd t /\
   initCheck t' <> NO_ERROR /\
   lookup_fd (mReceiveFd t) w' = None /\
   (forall vaddr size w'',
      read t' vaddr size w'' = Some (- EBADF, vaddr, set_errno EBADF w'')) /\
   (result = NO_ERROR ->
    exists d, reply' = reply ++ [d] /\ d <> mReceiveFd t /\
      is_Some (lookup_fd d w') /\
      lookup_fd d w' = lookup_fd (mReceiveFd t) w)).
Proof.
  split.
  - intros H. unfold writeToParcel.
    destruct (mReceiveFd t <? 0) eqn:E; [done | apply Z.ltb_ge in E; lia].
  - intros H. unfold writeToParcel.
    destruct (mReceiveFd t <? 0) eqn:E; [apply Z.ltb_lt in E; lia|].
    destruct (writeDupFileDescriptor (mReceiveFd t) reply w)
      as [[result reply'] w1] eqn:Hw.
    simpl. split_and!; try done.
    + apply close_closed.
    + intros Hok. unfold writeDupFileDescriptor in Hw.
      pose proof (dup_result (mReceiveFd t) w) as Hd.
      destruct (dup (mReceiveFd t) w) as [d w0]. simpl in Hd.
      destruct Hd as [(-> & Hpos & _)|(n & e & -> & He & Hfree & Htab)].
      * simpl in Hw. injection Hw as <- <- <-. unfold NO_ERROR in Hok. lia.
      * destruct (Z.of_nat n <? 0) eqn:En; [apply Z.ltb_lt in En; lia|].
        injection Hw as <- <- <-. exists (Z.of_nat n).
        apply lookup_fd_Some in He as Hfd. destruct Hfd as [Hfd Hl].
        assert (Hne : Z.of_nat n <> mReceiveFd t).
        { intros Heq. rewrite <- Heq, Nat2Z.id in Hl. congruence. }
        assert (Hnew : lookup_fd (Z.of_nat n) (close (mReceiveFd t) w0).2 = Some e).
        { rewrite close_other by done.
          by rewrite lookup_fd_of_nat, Htab, lookup_insert_eq. }
        split_and!; try done. by rewrite Hnew.
Qed.

(** C7 as the code has it.  [read] returns 0 when receiving would block
    and 0 when the peer is closed, and a negative code on a real error:
    the return value tells a real error from the other two, and does not
    tell those two apart.  The caller's buffer is untouched in all three. *)
Theorem receive_outcomes t vaddr size w :
  (no_message_pending (mReceiveFd t) w ->
   read t vaddr size w = Some (0, vaddr, set_errno EAGAIN (settle w))) /\
  (peer_closed (mReceiveFd t) w ->
   read t vaddr size w = Some (0, vaddr, settle w)) /\
  (real_error (mReceiveFd t) w ->
   exists r w', read t vaddr size w = Some (r, vaddr, w') /\ r < 0).
Proof.
  split_and!.
  - apply read_idle.
  - apply read_hangup.
  - apply read_failure.
Qed.

End Lifecycle.

Module LabelFacts.
Import InputEventLabels.


Lemma lookupLabelByValue_unmapped code pre v :
  labelled pre -> unmapped code pre ->
  lookupLabelByValue code (pre ++ [mkLabel None v]) = Some None.
Proof.
  induction pre as [|e pre IH]; intros Hl Hu; [done|].
  simpl. destruct (Hl e) as [l Hlit]; [left|]. rewrite Hlit.
  destruct (Z.eqb_spec (value e) code) as [Heq|Hne].
  - destruct (Hu e); [left | by rewrite Hlit | done].
  - apply IH.
    + intros e' He'. apply Hl. by right.
    + intros e' He' Hs. apply Hu; [by right | done].
Qed.

(** A found label is the literal of an entry with that value, and a found
    value the value of an entry with that literal. *)
Lemma lookupLabelByValue_found code table l :
  lookupLabelByValue code table = Some (Some l) ->
  exists e, e ∈ table /\ literal e = Some l /\ value e = code.
Proof.
  induction table as [|e table IH]; [done|]. simpl.
  destruct (literal e) as [l'|] eqn:Hlit; [|done].
  destruct (Z.eqb_spec (value e) code) as [Heq|Hne].
  - intros [= ->]. exists e. split_and!; [left | done | done].
  - intros H. destruct (IH H) as (e' & ? & ? & ?). exists e'.
    split_and!; [by right | done | done].
Qed.

Lemma labelled_fmap (f : string -> InputEventLabel) names :
  (forall k, is_Some (literal (f k))) -> labelled (f <$> names).
Proof.
  intros Hf e He. apply list_elem_of_fmap in He as (k & -> & _). apply Hf.
Qed.





(** When every entry carries its own position as value, a walk by value
    finds the label that stands at position [code - base]. *)
Lemma lookupLabelByValue_positional (f : string -> Z) names base code :
  (forall i name, names !! i = Some name -> f name = base + Z.of_nat i) ->
  base <= code ->
  lookupLabelByValue code
    (((λ k, mkLabel (Some k) (f k)) <$> names) ++ [END_OF_TABLE]) =
  Some (names !! Z.to_nat (code - base)).
Proof.
  revert base. induction names as [|n names IH]; intros base Hpos Hc; [done|].
  rewrite fmap_cons, <- app_comm_cons.
  cbn [lookupLabelByValue literal value].
  rewrite (Hpos 0%nat n eq_refl), Z.add_0_r.
  destruct (Z.eqb_spec base code) as [->|Hne].
  - by rewrite Z.sub_diag.
  - rewrite (IH (base + 1)); [| |lia].
    + replace (Z.to_nat (code - base)) with (S (Z.to_nat (code - (base + 1))))
        by lia. done.
    + intros i name Hi. rewrite (Hpos (S i) name Hi). lia.
Qed.

Section Constants.
Variable AKEYCODE : string -> Z.
Variable AMOTION_EVENT_AXIS : string -> Z.
Variable ALED : string -> Z.
Variable POLICY_FLAG : string -> Z.

Abbreviation KEYCODES := (KEYCODES AKEYCODE).
Abbreviation AXES := (AXES AMOTION_EVENT_AXIS).
Abbreviation LEDS := (LEDS ALED).
Abbreviation FLAGS := (FLAGS POLICY_FLAG).

Lemma KEYCODES_length : length KEYCODES = 269%nat.
Proof. reflexivity. Qed.

(** [getLabelByKeyCode] reads the table by position: slot [keyCode]
    decides, whatever value the entry in it carries. *)
Lemma getLabelByKeyCode_slot keyCode :
  0 <= keyCode < 268 ->
  getLabelByKeyCode AKEYCODE keyCode = KEYCODE_NAMES !! Z.to_nat keyCode /\
  is_Some (getLabelByKeyCode AKEYCODE keyCode).
Proof.
  intros Hk. unfold getLabelByKeyCode. rewrite KEYCODES_length.
  assert (Hlt : (Z.to_nat keyCode < length KEYCODE_NAMES)%nat).
  { change (length KEYCODE_NAMES) with 268%nat. lia. }
  destruct (lookup_lt_is_Some_2 _ _ Hlt) as [name Hname].
  replace ((0 <=? keyCode) && (keyCode <? Z.of_nat 269)) with true
    by (symmetry; apply andb_true_iff; split; [apply Z.leb_le | apply Z.ltb_lt]; lia).
  unfold InputEventLabels.KEYCODES.
  rewrite lookup_app_l by (by rewrite length_fmap).
  rewrite list_lookup_fmap, Hname. simpl. by split; [|eexists].
Qed.

Lemma getLabelByKeyCode_outside keyCode :
  keyCode < 0 \/ Z.of_nat (length KEYCODES) <= keyCode ->
  getLabelByKeyCode AKEYCODE keyCode = None.
Proof.
  intros Hout. unfold getLabelByKeyCode.
  destruct (0 <=? keyCode) eqn:E0; [|done].
  destruct (keyCode <? _) eqn:E1; [|done].
  apply Z.leb_le in E0. apply Z.ltb_lt in E1. lia.
Qed.


(** X18. When every key-code constant equals the index of its name in the
    table, the two ways to look a key code up agree for every code: by
    position ([getLabelByKeyCode]) and by value ([lookupLabelByValue] over
    [KEYCODES]). *)
Lemma getLabelByKeyCode_positional keyCode :
  (forall i name, KEYCODE_NAMES !! i = Some name -> AKEYCODE name = Z.of_nat i) ->
  lookupLabelByValue keyCode KEYCODES =
  Some (getLabelByKeyCode AKEYCODE keyCode).
Proof.
  intros Hpos. destruct (Z_lt_le_dec keyCode 0) as [Hneg|Hnn].
  - rewrite getLabelByKeyCode_outside by (left; lia).
    apply (lookupLabelByValue_unmapped keyCode _ 0).
    + apply labelled_fmap. by eexists.
    + intros e He _. apply list_elem_of_fmap in He as (k & -> & Hk).
      apply list_elem_of_lookup in Hk as [i Hi]. simpl.
      rewrite (Hpos i k Hi). lia.
  - unfold InputEventLabels.KEYCODES, DEFINE_KEYCODE.
    rewrite (lookupLabelByValue_positional AKEYCODE KEYCODE_NAMES 0 keyCode)
      by (try done; intros i name Hi; rewrite (Hpos i name Hi); lia).
    f_equal. rewrite Z.sub_0_r.
    destruct (Z_lt_le_dec keyCode 268) as [Hin|Hout].
    + symmetry. by apply getLabelByKeyCode_slot.
    + rewrite lookup_ge_None_2
        by (change (length KEYCODE_NAMES) with 268%nat; lia).
      symmetry. unfold getLabelByKeyCode. rewrite KEYCODES_length.
      destruct (Z_lt_le_dec keyCode 269) as [H9|H9].
      * replace keyCode with 268 by lia. reflexivity.
      * destruct (keyCode <? _) eqn:E; [apply Z.ltb_lt in E; lia|].
        by rewrite andb_false_r.
Qed.

End Constants.

End LabelFacts.

Module TransferFacts.
Import Errno BitTube PosixFacts LoopFacts RawFacts RecordFacts BatchFacts.

Local Arguments Z.eqb : simpl never.

(** What one [send] reports: -1 with a positive errno and every queue as
    it was, or the length of a prefix of the data. *)
Lemma send_report fd data w :
  ((send fd data w).1 = -1 /\ 0 < errno (send fd data w).2 /\
   socks (send fd data w).2 = socks w) \/
  (0 <= (send fd data w).1 <= Z.of_nat (length data)).
Proof.
  assert (Hd : forall e d w0,
    ((deliver e d w0).1 = -1 /\ 0 < errno (deliver e d w0).2 /\
     socks (deliver e d w0).2 = socks w0) \/
    (deliver e d w0).1 = Z.of_nat (length d)).
  { intros e d w0. unfold deliver, fail. repeat case_match; simpl;
      try (left; by split_and!); by right. }
  unfold send. destruct (lookup_fd fd w) as [e|]; [|left; by split_and!].
  unfold next_fault. destruct (faults w) as [|[n|n] fs].
  - destruct (Hd e data w) as [H|H]; [by left | right; lia].
  - left. simpl. split_and!; [done | lia | done].
  - destruct (Hd e (take n data) (set_faults fs w)) as [H|H]; [by left|].
    right. rewrite H, length_take. lia.
Qed.

(** What one [recv] reports: -1 with a positive errno and no data, or the
    length of the data, which fits the capacity. *)
Lemma recv_report fd cap w :
  ((recv fd cap w).1.1 = -1 /\ 0 < errno (recv fd cap w).2 /\
   (recv fd cap w).1.2 = []) \/
  ((recv fd cap w).1.1 = Z.of_nat (length (recv fd cap w).1.2) /\
   (length (recv fd cap w).1.2 <= cap)%nat).
Proof.
  assert (Hf : forall e c w0,
    ((fetch e c w0).1.1 = -1 /\ 0 < errno (fetch e c w0).2 /\
     (fetch e c w0).1.2 = []) \/
    ((fetch e c w0).1.1 = Z.of_nat (length (fetch e c w0).1.2) /\
     (length (fetch e c w0).1.2 <= c)%nat)).
  { intros e c w0. unfold fetch. repeat case_match; simpl;
      try (left; by split_and!); right; split; try done; try lia.
    rewrite length_take. lia. }
  unfold recv. destruct (lookup_fd fd w) as [e|]; [|left; by split_and!].
  unfold next_fault. destruct (faults w) as [|[n|n] fs].
  - apply Hf.
  - left. simpl. split_and!; [done | lia | done].
  - destruct (Hf e (Nat.min n cap) (set_faults fs w)) as [H|[H1 H2]];
      [by left | right; split; [done | lia]].
Qed.

(** The last round of the loop of [write]. *)
Lemma send_retry_report fuel fd data w len err w1 :
  send_retry fuel fd data w = Some (len, err, w1) ->
  (0 <= len <= Z.of_nat (length data) /\ err = 0) \/
  (len = -1 /\ 0 < err /\ err <> EINTR /\ err = errno w1).
Proof.
  revert w. induction fuel as [|k IH]; intros w; [done|].
  cbn [send_retry]. pose proof (send_report fd data w) as Hs.
  destruct (send fd data w) as [l w0]. simpl in Hs.
  destruct Hs as [(-> & Hpos & _)|Hs].
  - change (-1 <? 0) with true. cbv iota.
    destruct (Z.eqb_spec (errno w0) EINTR) as [He|He]; [apply IH|].
    intros [= <- <- <-]. right. by split_and!.
  - destruct (l <? 0) eqn:E; [apply Z.ltb_lt in E; lia|].
    change (0 =? EINTR) with false. cbv iota.
    intros [= <- <- <-]. by left.
Qed.

(** The last round of the loop of [read]. *)
Lemma recv_retry_report fuel fd cap w len err data w1 :
  recv_retry fuel fd cap w = Some (len, err, data, w1) ->
  (len = Z.of_nat (length data) /\ (length data <= cap)%nat /\ err = 0) \/
  (len = -1 /\ data = [] /\ 0 < err /\ err <> EINTR /\ err = errno w1).
Proof.
  revert w. induction fuel as [|k IH]; intros w; [done|].
  cbn [recv_retry]. pose proof (recv_report fd cap w) as Hs.
  destruct (recv fd cap w) as [[l d] w0]. simpl in Hs.
  destruct Hs as [(-> & Hpos & ->)|[-> Hcap]].
  - change (-1 <? 0) with true. cbv iota.
    destruct (Z.eqb_spec (errno w0) EINTR) as [He|He]; [apply IH|].
    intros [= <- <- <- <-]. right. by split_and!.
  - destruct (Z.of_nat (length d) <? 0) eqn:E; [apply Z.ltb_lt in E; lia|].
    change (0 =? EINTR) with false. cbv iota.
    intros [= <- <- <- <-]. by left.
Qed.

(** X1. [write] always returns, and what it returns is either a byte
    count between 0 and the size asked for (the length of the data taken
    from the buffer), or the negated errno of the failed [send]; it is never
    [-EINTR]: an interrupted [send] is retried, not reported. *)
Theorem write_reports t vaddr size w :
  exists r w', write t vaddr size w = Some (r, w') /\
    r <> - EINTR /\
    ((0 <= r <= Z.of_nat (length (take (Z.to_nat size) vaddr))) \/
     (r < 0 /\ r = - errno w')).
Proof.
  destruct (write_total t vaddr size w) as [[r w'] Hw]. exists r, w'.
  split; [done|]. unfold write in Hw.
  destruct (send_retry _ _ _ _) as [[[len err] w1]|] eqn:Hs; [|done].
  simpl in Hw. apply send_retry_report in Hs.
  destruct Hs as [[Hlen ->]|(-> & Hpos & Hne & Herr)].
  - change (0 =? 0) with true in Hw. injection Hw as <- <-.
    split; [unfold EINTR; lia | by left].
  - destruct (Z.eqb_spec err 0) as [->|_]; [lia|]. injection Hw as <- <-.
    split; [lia | right; lia].
Qed.

(** X2. [read] always returns, and what it returns is either the number
    of bytes received, which never exceeds the capacity asked for, or the
    negated errno of the failed [recv]; it is never [-EINTR] (retried) and
    never [-EAGAIN] (reported as 0). *)
Theorem read_reports t vaddr size w :
  exists r vaddr' w', read t vaddr size w = Some (r, vaddr', w') /\
    r <> - EINTR /\ r <> - EAGAIN /\
    ((0 <= r <= Z.of_nat (Z.to_nat size)) \/ (r < 0 /\ r = - errno w')).
Proof.
  destruct (read_total t vaddr size w) as [[[r v'] w'] Hr]. exists r, v', w'.
  split; [done|]. unfold read in Hr.
  destruct (recv_retry _ _ _ _) as [[[[len err] data] w1]|] eqn:Hs; [|done].
  simpl in Hr. apply recv_retry_report in Hs.
  destruct Hs as [(-> & Hcap & ->)|(-> & -> & Hpos & Hne & Herr)].
  - change ((0 =? EAGAIN) || (0 =? EWOULDBLOCK)) with false in Hr.
    change (0 =? 0) with true in Hr. injection Hr as <- <- <-.
    unfold EINTR, EAGAIN. split_and!; [lia | lia | left; lia].
  - unfold EWOULDBLOCK in Hr. rewrite orb_diag in Hr.
    destruct (Z.eqb_spec err EAGAIN) as [He|He].
    + injection Hr as <- <- <-. unfold EINTR, EAGAIN.
      split_and!; [lia | lia | left; lia].
    + destruct (Z.eqb_spec err 0) as [->|_]; [lia|]. injection Hr as <- <- <-.
      split_and!; [lia | lia | right; lia].
Qed.

Lemma rounds_settle w : rounds (settle w) = 1%nat.
Proof. unfold rounds. by rewrite faults_settle. Qed.

(** X3. Interruptions are invisible to the caller: on an open descriptor,
    [write] and [read] in a world whose next calls are interrupted any
    number of times return what they return in the world where the
    interruptions are over. *)
Theorem interruptions_invisible t vaddr size w :
  interrupts (faults w) ->
  (is_Some (lookup_fd (mSendFd t) w) ->
   write t vaddr size w = write t vaddr size (settle w)) /\
  (is_Some (lookup_fd (mReceiveFd t) w) ->
   read t vaddr size w = read t vaddr size (settle w)).
Proof.
  intros Hi. split; intros Hfd.
  - unfold write. rewrite send_retry_settle by done.
    by rewrite rounds_settle.
  - unfold read. rewrite recv_retry_settle by done.
    by rewrite rounds_settle.
Qed.

(** X4. [write] sends the whole message or nothing ("cannot return less
    than size, since we're using SOCK_SEQPACKET"): when the transport
    injects nothing but interruptions, [write] either fails with a negative
    code and leaves every queue as it was, or returns the full length and
    has put exactly the bytes given, as one datagram, at the end of the
    peer's queue. *)
Theorem write_all_or_nothing t vaddr size w :
  interrupts (faults w) ->
  exists r w', write t vaddr size w = Some (r, w') /\
    ((r < 0 /\ socks w' = socks w) \/
     (r = Z.of_nat (length (take (Z.to_nat size) vaddr)) /\
      exists e p,
        lookup_fd (mSendFd t) w = Some e /\ socks w !! peer e = Some p /\
        socks w' =
          <[peer e := enqueue (take (Z.to_nat size) vaddr) p]> (socks w))).
Proof.
  intros Hi. destruct (lookup_fd (mSendFd t) w) as [e|] eqn:He.
  - rewrite (write_open _ _ _ _ e He Hi).
    set (data := take (Z.to_nat size) vaddr).
    assert (Hd :
      ((deliver e data (settle w)).1 = -1 /\
       0 < errno (deliver e data (settle w)).2 /\
       socks (deliver e data (settle w)).2 = socks w) \/
      ((deliver e data (settle w)).1 = Z.of_nat (length data) /\
       exists p, socks w !! peer e = Some p /\
         socks (deliver e data (settle w)).2 =
           <[peer e := enqueue data p]> (socks w))).
    { unfold deliver, fail. rewrite socks_settle.
      repeat case_match; simpl; rewrite ?socks_settle;
        try (left; by split_and!).
      right. split; [done|]. by eexists. }
    eexists _, _. split; [done|]. cbv zeta. cbn [fst snd].
    destruct Hd as [(-> & Hpos & Hs)|(-> & p & Hp & Hs)].
    + left. change (-1 <? 0) with true. cbv iota. split; [lia | done].
    + right. destruct (Z.of_nat _ <? 0) eqn:E; [apply Z.ltb_lt in E; lia|].
      split; [done|]. by exists e, p.
  - rewrite write_closed by done. eexists _, _. split; [done|]. by left.
Qed.

(** X5. [read] stays inside the caller's buffer: it never returns more
    than the capacity, and for a buffer that holds at least the capacity it
    keeps the buffer's length, every byte past the capacity, and every
    byte past those it received. *)
Theorem read_within_capacity t vaddr size w :
  exists r vaddr' w', read t vaddr size w = Some (r, vaddr', w') /\
    r <= Z.of_nat (Z.to_nat size) /\
    ((Z.to_nat size <= length vaddr)%nat ->
     length vaddr' = length vaddr /\
     drop (Z.to_nat size) vaddr' = drop (Z.to_nat size) vaddr /\
     drop (Z.to_nat r) vaddr' = drop (Z.to_nat r) vaddr).
Proof.
  destruct (read_total t vaddr size w) as [[[r v'] w'] Hr]. exists r, v', w'.
  split; [done|]. unfold read in Hr.
  destruct (recv_retry _ _ _ _) as [[[[len err] data] w1]|] eqn:Hs; [|done].
  simpl in Hr. apply recv_retry_report in Hs.
  assert (Hstore : forall d : list byte,
    (length d <= Z.to_nat size)%nat -> (Z.to_nat size <= length vaddr)%nat ->
    length (store d vaddr) = length vaddr /\
    drop (Z.to_nat size) (store d vaddr) = drop (Z.to_nat size) vaddr /\
    drop (length d) (store d vaddr) = drop (length d) vaddr).
  { intros d Hd Hv. unfold store. split_and!.
    - rewrite length_app, length_drop. lia.
    - rewrite drop_app_ge, drop_drop by lia. f_equal. lia.
    - by rewrite drop_app_length. }
  destruct Hs as [(-> & Hcap & ->)|(-> & -> & Hpos & Hne & Herr)].
  - change ((0 =? EAGAIN) || (0 =? EWOULDBLOCK)) with false in Hr.
    change (0 =? 0) with true in Hr. injection Hr as <- <- <-.
    split; [lia|]. intros Hv. rewrite Nat2Z.id. by apply Hstore.
  - assert (Hr0 : r <= 0 /\ v' = vaddr).
    { destruct (_ || _); [by injection Hr as <- <- <-|].
      destruct (Z.eqb_spec err 0); injection Hr as <- <- <-; split; (lia || done). }
    destruct Hr0 as [Hr0 ->]. split; [lia|]. intros _.
    replace (Z.to_nat r) with 0%nat by lia. done.
Qed.

(** The result of [write] is at most the size asked for. *)
Lemma write_at_most t vaddr size w r w' :
  write t vaddr size w = Some (r, w') -> r <= Z.of_nat (Z.to_nat size).
Proof.
  unfold write. intros Hw.
  destruct (send_retry _ _ _ _) as [[[len err] w1]|] eqn:Hs; [|done].
  simpl in Hw. apply send_retry_report in Hs.
  rewrite length_take in Hs.
  destruct Hs as [[Hlen ->]|(-> & Hpos & Hne & Herr)].
  - change (0 =? 0) with true in Hw. injection Hw as <- <-. lia.
  - destruct (Z.eqb_spec err 0) as [->|_]; [lia|]. injection Hw as <- <-. lia.
Qed.

Lemma read_at_most t vaddr size w r vaddr' w' :
  read t vaddr size w = Some (r, vaddr', w') -> r <= Z.of_nat (Z.to_nat size).
Proof.
  unfold read. intros Hr.
  destruct (recv_retry _ _ _ _) as [[[[len err] data] w1]|] eqn:Hs; [|done].
  simpl in Hr. apply recv_retry_report in Hs.
  destruct Hs as [(-> & Hcap & ->)|(-> & -> & Hpos & Hne & Herr)].
  - change ((0 =? EAGAIN) || (0 =? EWOULDBLOCK)) with false in Hr.
    change (0 =? 0) with true in Hr. injection Hr as <- <- <-. lia.
  - destruct (_ || _); [injection Hr as <- <- <-; lia|].
    destruct (Z.eqb_spec err 0); injection Hr as <- <- <-; lia.
Qed.

Section Width.
Variable wbits : positive.

Abbreviation SIZE_MOD := (SIZE_MOD wbits).
Abbreviation SSIZE_MAX := (SSIZE_MAX wbits).
Abbreviation size_mul := (size_mul wbits).
Abbreviation records := (records wbits).
Abbreviation sendObjects := (sendObjects wbits).
Abbreviation recvObjects := (recvObjects wbits).
Abbreviation connected := (connected wbits).

Lemma records_at_most size objSize count n :
  0 < objSize <= SSIZE_MAX -> 0 <= count ->
  size <= Z.of_nat (Z.to_nat (size_mul count objSize)) ->
  records size objSize = Returned n -> n <= count.
Proof.
  intros Ho Hc Hs Hrec.
  assert (Hm : size_mul count objSize <= count * objSize).
  { unfold BitTube.size_mul. apply Z.mod_le; [nia|].
    unfold BitTube.SIZE_MOD. apply Z.pow_pos_nonneg; lia. }
  destruct (Z_lt_le_dec size 0) as [Hneg|Hnn].
  - rewrite records_negative in Hrec by done. injection Hrec as <-. lia.
  - destruct (Z.eq_dec (size mod objSize) 0) as [Hd|Hd].
    + rewrite records_whole in Hrec; [| done | done | by apply Z.mod_divide; [lia|]].
      injection Hrec as <-.
      apply Z.div_le_upper_bound; [lia|]. lia.
    + rewrite records_partial in Hrec; [done | done | done |].
      intros Hdiv. apply Hd. apply Z.mod_divide; [lia | done].
Qed.

(** X6. The helpers never report more records than they were asked to
    move: for a record size [0 < objSize <= SSIZE_MAX] and a count
    [count >= 0], a record count returned by [sendObjects] or [recvObjects]
    is at most [count] (whatever the transport did). *)
Theorem record_count_bounded t events count objSize w :
  0 < objSize <= SSIZE_MAX -> 0 <= count ->
  (exists o w', sendObjects t events count objSize w = Some (o, w') /\
     forall n, o = Returned n -> n <= count) /\
  (exists o events' w',
     recvObjects t events count objSize w = Some (o, events', w') /\
     forall n, o = Returned n -> n <= count).
Proof.
  intros Ho Hc. split.
  - destruct (write_total t events (size_mul count objSize) w) as [[size w'] Hw].
    rewrite (sendObjects_write wbits _ _ _ _ _ _ _ Hw).
    eexists _, _. split; [done|]. intros n Hn.
    apply write_at_most in Hw. by eapply records_at_most.
  - destruct (read_total t events (size_mul count objSize) w)
      as [[[size ev] w'] Hr].
    rewrite (recvObjects_read wbits _ _ _ _ _ _ _ _ Hr).
    eexists _, _, _. split; [done|]. intros n Hn.
    apply read_at_most in Hr. by eapply records_at_most.
Qed.

End Width.

End TransferFacts.

Module OrderFacts.
Import Errno Posix BitTube Drivers PosixFacts LoopFacts RawFacts RecordFacts.
Import BatchFacts ChannelFacts TransferFacts.

Section Width.
Variable wbits : positive.

Abbreviation SSIZE_MAX := (SSIZE_MAX wbits).
Abbreviation size_mul := (size_mul wbits).
Abbreviation records := (records wbits).
Abbreviation sendObjects := (sendObjects wbits).
Abbreviation recvObjects := (recvObjects wbits).
Abbreviation connected := (connected wbits).
Abbreviation sendEach := (sendEach wbits).
Abbreviation recvEach := (recvEach wbits).

Lemma recvEach_connected ts tr limit S buffer batches :
  0 < S -> whole batches S ->
  Forall (λ b, b.2 * S <= limit) batches ->
  forall w q,
    connected ts tr w (batches.*1 ++ q) limit ->
    exists w1,
      recvEach tr buffer batches.*2 S w =
        Some ((λ b, (Returned b.2, b.1 ++ drop (length b.1) buffer)) <$> batches,
              w1) /\
      connected ts tr w1 q limit.
Proof.
  intros HS Hw. induction Hw as [|[ev n] bs [Hn Hlen] Hbs IH];
    intros Hlim w q Hc.
  - by exists w.
  - apply Forall_cons in Hlim as [Hl Hlim]. simpl in *.
    destruct (recvObjects_connected wbits ts tr w ev (bs.*1 ++ q) limit buffer n S)
      as (w1 & -> & Hc1); try done.
    destruct (IH Hlim w1 q Hc1) as (w2 & Hr2 & Hc2).
    exists w2. simpl. unfold fmap in Hr2. by rewrite Hr2.
Qed.

(** A datagram the buffers have no room for is refused: on a valid pair
    [write] returns a negative code. *)
Lemma write_connected_refused ts tr w q limit vaddr size :
  connected ts tr w q limit ->
  limit < Z.of_nat (queued q + length (take (Z.to_nat size) vaddr)) ->
  exists r w1, write ts vaddr size w = Some (r, w1) /\ r < 0.
Proof.
  intros (p & sA & sB & Hs & Hr & HB & HA & Hrefs & Hq & Hlim & Hmax & Hquiet) Hfull.
  rewrite (write_open _ _ _ _ (p, true) Hs (quiet_interrupts _ Hquiet)).
  rewrite (settle_quiet _ Hquiet). unfold deliver.
  change (peer (p, true)) with (p, false). rewrite HB, HA.
  rewrite decide_False by done.
  destruct (decide (so_sndbuf sB < _)).
  - eexists _, _. split; [reflexivity|]. by vm_compute.
  - unfold room. rewrite Hq, bool_decide_eq_false_2 by lia.
    eexists _, _. split; [reflexivity|]. by vm_compute.
Qed.

(** What a record count says about the raw result. *)
Lemma records_accepted size objSize n :
  0 < objSize <= SSIZE_MAX -> 0 < n ->
  records size objSize = Returned n -> size = n * objSize.
Proof.
  intros Ho Hn Hrec. destruct (Z_lt_le_dec size 0) as [Hneg|Hnn].
  - rewrite records_negative in Hrec by done. injection Hrec as ->. lia.
  - destruct (Z.eq_dec (size mod objSize) 0) as [Hd|Hd];
      [apply Z.mod_divide in Hd; [|lia]
      |assert (~ (objSize | size)) by (intros ?; apply Hd, Z.mod_divide; [lia|done])].
    + rewrite records_whole in Hrec by done. injection Hrec as <-.
      destruct Hd as [k ->]. rewrite Z.div_mul by lia. done.
    + by rewrite records_partial in Hrec.
Qed.

(** A batch that [sendObjects] reports as sent went out whole, as one
    datagram behind those that wait. *)
Lemma sendObjects_accepted ts tr w q limit events N S w1 :
  connected ts tr w q limit -> 0 < N -> 0 < S <= SSIZE_MAX ->
  Z.of_nat (length events) = N * S ->
  sendObjects ts events N S w = Some (Returned N, w1) ->
  Z.of_nat (queued q) + N * S <= limit /\
  connected ts tr w1 (q ++ [events]) limit.
Proof.
  intros Hc HN HS Hlen Hsend.
  destruct (Z_le_gt_dec (Z.of_nat (queued q) + N * S) limit) as [Hfit|Hfull].
  - split; [done|].
    destruct (sendObjects_connected wbits ts tr w q limit events N S)
      as (w1' & Hs' & Hc1); try done; [lia|].
    rewrite Hs' in Hsend. by injection Hsend as <-.
  - exfalso. unfold BitTube.sendObjects in Hsend.
    destruct (write ts events (size_mul N S) w) as [[r w']|] eqn:Hw; [|done].
    simpl in Hsend. injection Hsend as Hrec <-.
    apply records_accepted in Hrec; [|done..].
    pose proof (write_at_most _ _ _ _ _ _ Hw) as Hle.
    assert (Hm : BitTube.size_mul wbits N S <= N * S).
    { unfold BitTube.size_mul. apply Z.mod_le; [nia|].
      unfold BitTube.SIZE_MOD. apply Z.pow_pos_nonneg; lia. }
    assert (Hsz : BitTube.size_mul wbits N S = N * S) by nia.
    rewrite Hsz in Hw.
    destruct (write_connected_refused ts tr w q limit events (N * S) Hc)
      as (r' & w2 & Hw' & Hneg).
    { rewrite take_ge by lia. lia. }
    rewrite Hw in Hw'. injection Hw' as -> ->. nia.
Qed.

Lemma sendEach_accepted ts tr limit S batches :
  0 < S <= SSIZE_MAX -> whole batches S ->
  forall w q w1,
    connected ts tr w q limit ->
    sendEach ts batches S w = Some (Returned <$> batches.*2, w1) ->
    connected ts tr w1 (q ++ batches.*1) limit /\
    Forall (λ b, b.2 * S <= limit) batches.
Proof.
  intros HS. induction 1 as [|[ev n] bs [Hn Hlen] Hbs IH]; intros w q w1 Hc Hsend.
  - simpl in Hsend. injection Hsend as <-. by rewrite app_nil_r.
  - simpl in *.
    destruct (BitTube.sendObjects wbits ts ev n S w) as [[o w2]|] eqn:Hs1; [|done].
    simpl in Hsend.
    destruct (Drivers.sendEach wbits ts bs S w2) as [[os w3]|] eqn:Hs2; [|done].
    simpl in Hsend. injection Hsend as -> -> ->.
    destruct (sendObjects_accepted ts tr w q limit ev n S w2) as [Hfit Hc1];
      try done.
    destruct (IH w2 (q ++ [ev]) w1 Hc1 Hs2) as [Hc2 Hall].
    rewrite <- app_assoc in Hc2. split; [done|].
    constructor; [simpl; lia | done].
Qed.

(** X7. First in, first out.  When [sendObjects] has reported every one of
    a series of batches of whole records as sent, on a valid pair with
    nothing queued, the batches wait at the receiving end as one datagram
    each, in the order sent; the same number of [recvObjects] calls with
    the same counts then returns them one batch per call, in that order,
    each with its count and its bytes, and leaves the queue empty. *)
Theorem batches_in_order ts tr w limit S buffer batches w1 :
  connected ts tr w [] limit ->
  0 < S <= SSIZE_MAX -> whole batches S ->
  sendEach ts batches S w = Some (Returned <$> batches.*2, w1) ->
  connected ts tr w1 batches.*1 limit /\
  exists w2,
    recvEach tr buffer batches.*2 S w1 =
      Some ((λ b, (Returned b.2, b.1 ++ drop (length b.1) buffer)) <$> batches,
            w2) /\
    connected ts tr w2 [] limit.
Proof.
  intros Hc HS Hw Hsend.
  destruct (sendEach_accepted ts tr limit S batches HS Hw w [] w1 Hc Hsend)
    as [Hc1 Hall].
  simpl in Hc1. split; [done|].
  destruct (recvEach_connected ts tr limit S buffer batches
              (proj1 HS) Hw Hall w1 [])
    as (w2 & Hr & Hc2); [by rewrite app_nil_r|].
  by exists w2.
Qed.

(** X8. A receive that asks for fewer records than the pending datagram
    holds gets the first [N] records, and the rest of that datagram is
    gone: the queue continues with the next datagram. *)
Theorem short_receive_drops_rest ts tr w m q limit buffer N S :
  connected ts tr w (m :: q) limit ->
  0 < N -> 0 < S -> N * S <= limit ->
  N * S <= Z.of_nat (length m) ->
  exists w2,
    recvObjects tr buffer N S w =
      Some (Returned N,
            take (Z.to_nat (N * S)) m ++ drop (Z.to_nat (N * S)) buffer, w2) /\
    connected ts tr w2 q limit.
Proof.
  intros Hc HN HS Hfit Hlen.
  assert (Hmax : limit <= SSIZE_MAX) by (by destruct Hc as (?&?&?&?&?&?&?&?&?&?&?&?)).
  assert (Hsize : size_mul N S = N * S) by (apply size_mul_small; nia).
  destruct (read_connected wbits ts tr w m q limit buffer (N * S) Hc)
    as (w2 & Hr & Hc2).
  exists w2. split; [|done].
  rewrite <- Hsize in Hr. rewrite (recvObjects_read wbits _ _ _ _ _ _ _ _ Hr).
  rewrite Hsize. unfold store. rewrite length_take.
  replace (Z.to_nat (N * S) `min` length m)%nat with (Z.to_nat (N * S)) by lia.
  rewrite records_whole; [| nia | lia | exists N; lia].
  by rewrite Z2Nat.id, Z.div_mul by lia.
Qed.

End Width.
End OrderFacts.

Module OwnershipFacts.
Import Errno BitTube PosixFacts LoopFacts DescriptorFacts ChannelFacts ConstructionFacts Lifecycle.

(** [dup] and [close] in a quiet world, spelled out. *)
Lemma dup_quiet fd w e :
  faults w = [] -> lookup_fd fd w = Some e ->
  dup fd w = fail EMFILE w \/
  exists n, fdtab w !! n = None /\
    dup fd w = (Z.of_nat n,
                set_socks (alter ref e (socks w))
                  (set_fdtab (<[n := e]> (fdtab w)) w)).
Proof.
  intros Hq He. unfold dup, next_fault. rewrite He, Hq.
  destruct (alloc_fd w) as [n|] eqn:Ha; [right | by left].
  exists n. split; [by apply alloc_fd_free | done].
Qed.

Lemma close_open fd w e :
  lookup_fd fd w = Some e ->
  close fd w = (0, set_socks (alter unref e (socks w))
                     (set_fdtab (delete (Z.to_nat fd) (fdtab w)) w)).
Proof. intros He. unfold close. by rewrite He. Qed.

(** [close] keeps every queue. *)
Lemma close_queues fd w e :
  rx <$> socks (close fd w).2 !! e = rx <$> socks w !! e.
Proof.
  unfold close. destruct (lookup_fd fd w) as [e'|]; [|done]. simpl.
  rewrite lookup_alter. case_decide; [subst e'|done].
  by destruct (socks w !! e).
Qed.

(** X9. The destructor releases both descriptors and nothing else: after
    it neither descriptor of the object is open, every other descriptor
    refers to what it referred to, every queue holds what it held, and
    [write] and [read] through the object's descriptors fail with EBADF. *)
Theorem destroy_releases t w :
  let w' := BitTube_destroy t w in
  lookup_fd (mSendFd t) w' = None /\
  lookup_fd (mReceiveFd t) w' = None /\
  (forall fd, fd <> mSendFd t -> fd <> mReceiveFd t ->
     lookup_fd fd w' = lookup_fd fd w) /\
  (forall e, rx <$> socks w' !! e = rx <$> socks w !! e) /\
  (forall vaddr size,
     write t vaddr size w' = Some (- EBADF, set_errno EBADF w') /\
     read t vaddr size w' = Some (- EBADF, vaddr, set_errno EBADF w')).
Proof.
  intros w'.
  set (w1 := if 0 <=? mSendFd t then (close (mSendFd t) w).2 else w).
  assert (Hw' : w' = if 0 <=? mReceiveFd t
                     then (close (mReceiveFd t) w1).2 else w1) by done.
  assert (Hs1 : lookup_fd (mSendFd t) w1 = None).
  { unfold w1. destruct (0 <=? mSendFd t) eqn:E; [apply close_closed|].
    apply lookup_fd_negative. by apply Z.leb_gt. }
  assert (Hs : lookup_fd (mSendFd t) w' = None).
  { rewrite Hw'. destruct (0 <=? mReceiveFd t); [|done].
    destruct (Z.eq_dec (mReceiveFd t) (mSendFd t)) as [->|Hne];
      [apply close_closed | by rewrite close_other]. }
  assert (Hr : lookup_fd (mReceiveFd t) w' = None).
  { rewrite Hw'. destruct (0 <=? mReceiveFd t) eqn:E; [apply close_closed|].
    apply lookup_fd_negative. by apply Z.leb_gt. }
  split_and!; try done.
  - intros fd Hfs Hfr. rewrite Hw'.
    transitivity (lookup_fd fd w1).
    + destruct (0 <=? mReceiveFd t); [by rewrite close_other | done].
    + unfold w1. destruct (0 <=? mSendFd t); [by rewrite close_other | done].
  - intros e. rewrite Hw'.
    transitivity (rx <$> socks w1 !! e).
    + destruct (0 <=? mReceiveFd t); [apply close_queues | done].
    + unfold w1. destruct (0 <=? mSendFd t); [apply close_queues | done].
  - intros vaddr size. split; [by apply write_closed | by apply read_closed].
Qed.

Section Width.
Variable wbits : positive.

Abbreviation connected := (connected wbits).
Abbreviation sendObjects := (sendObjects wbits).
Abbreviation recvObjects := (recvObjects wbits).

(** X10. Handle transfer.  On a valid pair, when [writeToParcel] into an
    empty message succeeds and [BitTube(const Parcel&)] on that message
    obtains a descriptor, the sending object (which has lost its receive
    descriptor) and the rebuilt receive-only object are again a valid pair
    with the same limit and the same queue: a batch sent on the first is
    received whole by the second. *)
Theorem handle_transfer t w q limit t' reply' w1 tr w2 :
  connected t t w q limit ->
  writeToParcel t [] w = (NO_ERROR, t', reply', w1) ->
  BitTube_Parcel reply' w1 = (tr, w2) ->
  0 <= mReceiveFd tr ->
  mReceiveFd t' = -1 /\ mSendFd t' = mSendFd t /\ mSendFd tr = -1 /\
  connected t' tr w2 q limit /\
  (q = [] ->
   forall events buffer N S,
     0 < N -> 0 < S -> N * S <= limit ->
     Z.of_nat (length events) = N * S ->
     exists w3 w4,
       sendObjects t' events N S w2 = Some (Returned N, w3) /\
       recvObjects tr buffer N S w3 =
         Some (Returned N, events ++ drop (length events) buffer, w4)).
Proof.
  intros Hc Hwp Hbp Hvalid.
  destruct Hc as (p & sA & sB & Hs & Hr & HB & HA & Hrefs & Hq & Hlim & Hmax & Hquiet).
  subst q. pose proof (lookup_fd_Some_nonneg _ _ _ Hr) as Hnn.
  apply lookup_fd_Some in Hr as Hr'. destruct Hr' as [Hrz Hrn].
  apply lookup_fd_Some in Hs as Hs'. destruct Hs' as [Hsz Hsn].
  set (fr := Z.to_nat (mReceiveFd t)) in *.
  set (fs := Z.to_nat (mSendFd t)) in *.
  assert (Hfsr : fs <> fr) by (intros Heq; rewrite Heq in Hsn; congruence).
  (* writeToParcel: duplicate, then close the original *)
  unfold writeToParcel, writeDupFileDescriptor in Hwp.
  destruct (mReceiveFd t <? 0) eqn:E; [apply Z.ltb_lt in E; lia|].
  destruct (dup_quiet _ _ _ Hquiet Hr) as [Hd|(n & Hn & Hd)]; rewrite Hd in Hwp.
  { simpl in Hwp. injection Hwp as Hbad _ _ _. done. }
  destruct (Z.of_nat n <? 0) eqn:En; [apply Z.ltb_lt in En; lia|].
  set (wa := set_socks _ _) in Hwp.
  assert (Hra : lookup_fd (mReceiveFd t) wa = Some (p, false)).
  { rewrite Hrz, lookup_fd_of_nat. unfold wa. simpl.
    rewrite lookup_insert_ne by (intros ->; congruence). done. }
  rewrite (close_open _ _ _ Hra) in Hwp. cbn [fst snd] in Hwp.
  injection Hwp as <- <- <-.
  (* BitTube(const Parcel&): duplicate the descriptor of the message *)
  unfold BitTube_Parcel in Hbp. cbn [readFileDescriptor app fst] in Hbp.
  set (wb := set_socks _ _) in Hbp.
  assert (Hnb : lookup_fd (Z.of_nat n) wb = Some (p, false)).
  { rewrite lookup_fd_of_nat. unfold wb, wa. simpl.
    rewrite lookup_delete_ne by (intros Heq; fold fr in Heq; congruence).
    by rewrite lookup_insert_eq. }
  destruct (dup_quiet (Z.of_nat n) wb (p, false)) as [Hd2|(m & Hm & Hd2)];
    [done | done | |]; rewrite Hd2 in Hbp.
  { simpl in Hbp. injection Hbp as <- _. simpl in Hvalid. unfold EMFILE in *. lia. }
  destruct (Z.of_nat m <? 0) eqn:Em; [apply Z.ltb_lt in Em; lia|].
  injection Hbp as <- <-.
  assert (Hconn : connected (set_mReceiveFd (-1) t)
            (set_mReceiveFd (Z.of_nat m) {| mSendFd := -1; mReceiveFd := -1 |})
            (set_socks (alter ref (p, false) (socks wb))
               (set_fdtab (<[m:=(p, false)]> (fdtab wb)) wb)) (rx sA) limit).
  { exists p, (ref (unref (ref sA))), sB. split_and!; try done.
    - simpl. rewrite Hsz, lookup_fd_of_nat. fold fs. simpl.
      assert (Hsb : fdtab wb !! fs = Some (p, true)).
      { unfold wb, wa. simpl. fold fr.
        rewrite lookup_delete_ne by done.
        rewrite lookup_insert_ne by (intros ->; congruence). done. }
      rewrite lookup_insert_ne by (intros ->; congruence). done.
    - simpl. rewrite lookup_fd_of_nat. simpl. by rewrite lookup_insert_eq.
    - simpl. rewrite !lookup_alter_ne by done. done.
    - simpl. rewrite !lookup_alter_eq, HA. done. }
  split_and!; try done.
  intros Hq0 events buffer N S HN HS Hfit Hlen. rewrite Hq0 in Hconn.
  destruct (sendObjects_connected wbits _ _ _ [] limit events N S Hconn)
    as (w3 & Hsend & Hc3); try done; try (simpl; lia).
  destruct (recvObjects_connected wbits _ _ w3 events [] limit buffer N S Hc3)
    as (w4 & Hrecv & Hc4); try done.
  by exists w3, w4.
Qed.

End Width.

End OwnershipFacts.

Module NamingFacts.
Import Errno BitTube PosixFacts DescriptorFacts ConstructionFacts Lifecycle.

(** What [bind] leaves alone. *)
Lemma bind_frame fd name w :
  fdtab (bind fd name w).2 = fdtab w /\
  faults (bind fd name w).2 = faults w /\
  forall e, set_path None <$> socks (bind fd name w).2 !! e =
            set_path None <$> socks w !! e.
Proof.
  unfold bind, fail. destruct (lookup_fd fd w) as [e|]; [|done].
  destruct (socks w !! e) as [s|] eqn:Hs; [|done].
  destruct (decide (is_Some (sun_path s))); [done|].
  destruct (decide (name ∈ bound w)); [done|].
  simpl. split_and!; try done.
  intros e'. rewrite lookup_alter. case_decide; [subst|done].
  by rewrite Hs.
Qed.

(** X12. Naming is inert.  [setSocketName] opens and closes no
    descriptor, uses up nothing of the transport's script, and changes no
    socket except for the name it is bound to: queues, reference counts,
    buffer sizes and flags are what they were, whether the binds succeed
    or fail. *)
Theorem setSocketName_inert socket0 socket1 w :
  fdtab (setSocketName socket0 socket1 w) = fdtab w /\
  faults (setSocketName socket0 socket1 w) = faults w /\
  forall e, set_path None <$> socks (setSocketName socket0 socket1 w) !! e =
            set_path None <$> socks w !! e.
Proof.
  unfold setSocketName.
  set (n0 := sockName _ _ socket0). set (n1 := sockName _ _ socket1).
  set (w1 := if 0 <=? socket0 then (bind socket0 n0 w).2 else w).
  assert (H1 : fdtab w1 = fdtab w /\ faults w1 = faults w /\
               forall e, set_path None <$> socks w1 !! e =
                         set_path None <$> socks w !! e).
  { unfold w1. destruct (0 <=? socket0); [apply bind_frame | done]. }
  destruct H1 as (Hf & Hs & Hq).
  destruct (0 <=? socket1); [|done].
  destruct (bind_frame socket1 n1 w1) as (Hf' & Hs' & Hq').
  split_and!; [congruence | congruence |].
  intros e. by rewrite Hq', Hq.
Qed.

(** The descriptors a successful [socketpair] hands out were free. *)
Lemma socketpair_fresh w :
  faults w = [] -> (socketpair w).1.1 = 0 ->
  lookup_fd (socketpair w).1.2.1 w = None /\
  lookup_fd (socketpair w).1.2.2 w = None.
Proof.
  intros Hquiet. unfold socketpair, next_fault. rewrite Hquiet.
  destruct (alloc_fd w) as [a|] eqn:Ha; [|done].
  destruct (alloc_fd (set_fdtab _ w)) as [b|] eqn:Hb; [|done].
  intros _. simpl. rewrite !lookup_fd_of_nat.
  apply alloc_fd_free in Ha, Hb. simpl in Hb.
  split; [done|].
  destruct (decide (a = b)) as [->|Hne]; [done|].
  by rewrite lookup_insert_ne in Hb.
Qed.

(** X13. Construction.  In a quiet world in which [socketpair] succeeds,
    [BitTube(bufsize)] yields, for every [bufsize], an object that passes
    [initCheck] and holds two different descriptors that were not open
    before; after it they are open and are the two ends of one socket
    pair, with nothing queued at the receiving end.  [BitTube()] is
    [BitTube(4096)]. *)
Theorem constructor_valid_pair bufsize w :
  faults w = [] -> (socketpair w).1.1 = 0 ->
  let r := BitTube_bufsize bufsize w in
  initCheck r.1 = NO_ERROR /\
  mSendFd r.1 <> mReceiveFd r.1 /\
  lookup_fd (mSendFd r.1) w = None /\ lookup_fd (mReceiveFd r.1) w = None /\
  (exists p sA sB,
     lookup_fd (mSendFd r.1) r.2 = Some (p, true) /\
     lookup_fd (mReceiveFd r.1) r.2 = Some (p, false) /\
     socks r.2 !! (p, true) = Some sB /\ socks r.2 !! (p, false) = Some sA /\
     refs sA <> 0%nat /\ rx sA = []) /\
  BitTube_default w = BitTube_bufsize DEFAULT_SOCKET_BUFFER_SIZE w /\
  DEFAULT_SOCKET_BUFFER_SIZE = 4096.
Proof.
  intros Hquiet Hok r.
  pose proof (init_wired bufsize bufsize (mkTube (-1) (-1)) w Hquiet Hok) as Hw.
  fold (BitTube_bufsize bufsize w) in Hw. fold r in Hw.
  destruct Hw as (p & sA & sB & Hs & Hr & HB & HA & Hrefs & Hq & _).
  destruct (socketpair_fresh w Hquiet Hok) as [Hf0 Hf1].
  assert (Hfds : mReceiveFd r.1 = (socketpair w).1.2.1 /\
                 mSendFd r.1 = (socketpair w).1.2.2).
  { unfold r, BitTube_bufsize, init.
    destruct (socketpair w) as [[r0 [s0 s1]] w0]. cbn [fst snd] in *. subst r0.
    change (0 =? 0) with true. cbv iota.
    by destruct (String.eqb _ _). }
  destruct Hfds as [Hfr Hfs].
  split_and!; try done.
  - apply initCheck_spec. by eapply lookup_fd_Some_nonneg.
  - intros Heq. rewrite Heq in Hs. congruence.
  - by rewrite Hfs.
  - by rewrite Hfr.
  - by exists p, sA, sB.
Qed.

End NamingFacts.

Module LookupFacts.
Import InputEventLabels LabelFacts.

(** The walk by name over a table made by the macros: the constant of
    the name when the name is listed, the 0 of the last entry when not. *)
Lemma lookupValueByLabel_names (f : string -> Z) names name :
  lookupValueByLabel name
    (((λ k, mkLabel (Some k) (f k)) <$> names) ++ [END_OF_TABLE]) =
  Some (if decide (name ∈ names) then f name else 0).
Proof.
  induction names as [|n names IH]; [done|].
  rewrite fmap_cons, <- app_comm_cons. cbn [lookupValueByLabel literal value].
  destruct (String.eqb_spec name n) as [->|Hne].
  - rewrite decide_True by left. done.
  - rewrite IH. f_equal.
    destruct (decide (name ∈ names)) as [Hin|Hout].
    + rewrite decide_True by (by right). done.
    + rewrite decide_False; [done|].
      intros [?|?]%elem_of_cons; done.
Qed.

(** The walk by value finds the name whose constant it is given, when no
    other listed name has the same constant. *)
Lemma lookupLabelByValue_names (f : string -> Z) names name :
  name ∈ names ->
  (forall other, other ∈ names -> f other = f name -> other = name) ->
  lookupLabelByValue (f name)
    (((λ k, mkLabel (Some k) (f k)) <$> names) ++ [END_OF_TABLE]) =
  Some (Some name).
Proof.
  induction names as [|n names IH]; intros Hin Hinj; [by apply elem_of_nil in Hin|].
  rewrite fmap_cons, <- app_comm_cons. cbn [lookupLabelByValue literal value].
  destruct (Z.eqb_spec (f n) (f name)) as [Heq|Hne].
  - by rewrite (Hinj n (list_elem_of_here _ _) Heq).
  - apply IH.
    + apply elem_of_cons in Hin as [->|Hin]; done.
    + intros other Ho. apply Hinj. by right.
Qed.

Section Constants.
Variable AKEYCODE : string -> Z.
Variable AMOTION_EVENT_AXIS : string -> Z.
Variable ALED : string -> Z.
Variable POLICY_FLAG : string -> Z.

Abbreviation KEYCODES := (KEYCODES AKEYCODE).
Abbreviation AXES := (AXES AMOTION_EVENT_AXIS).

(** X14. The four lookups by name never leave their table and are decided
    by the list of names alone: a listed name gives its constant (as
    [uint32_t] for flags), any other name gives 0. *)
Theorem lookups_by_label name :
  getKeyCodeByLabel AKEYCODE name =
    Some (if decide (name ∈ KEYCODE_NAMES) then AKEYCODE name else 0) /\
  getKeyFlagByLabel POLICY_FLAG name =
    Some (if decide (name ∈ FLAG_NAMES)
          then to_uint32 (POLICY_FLAG name) else 0) /\
  getAxisByLabel AMOTION_EVENT_AXIS name =
    Some (if decide (name ∈ AXIS_NAMES) then AMOTION_EVENT_AXIS name else 0) /\
  getLedByLabel ALED name =
    Some (if decide (name ∈ LED_NAMES) then ALED name else 0).
Proof.
  split_and!; try apply lookupValueByLabel_names.
  unfold getKeyFlagByLabel.
  pose proof (lookupValueByLabel_names POLICY_FLAG FLAG_NAMES name) as H.
  change (lookupValueByLabel name (FLAGS POLICY_FLAG) =
          Some (if decide (name ∈ FLAG_NAMES) then POLICY_FLAG name else 0)) in H.
  rewrite H. simpl. by destruct (decide _).
Qed.

(** X15. From axis code to label and back: when [getAxisLabel] finds a
    label for a code, [getAxisByLabel] maps that label to this code. *)
Theorem axis_label_round_trip axisId label :
  getAxisLabel AMOTION_EVENT_AXIS axisId = Some (Some label) ->
  getAxisByLabel AMOTION_EVENT_AXIS label = Some axisId.
Proof.
  intros H. apply lookupLabelByValue_found in H as (e & He & Hl & Hv).
  apply elem_of_app in He as [He|He].
  - apply list_elem_of_fmap in He as (k & -> & Hk). simpl in *.
    injection Hl as ->. subst axisId.
    unfold getAxisByLabel, InputEventLabels.AXES, DEFINE_AXIS.
    rewrite lookupValueByLabel_names. by rewrite decide_True.
  - apply list_elem_of_singleton in He as ->. done.
Qed.

(** X16. From axis label to code and back: for a listed axis whose
    constant no other listed axis shares, [getAxisLabel] maps the code
    [getAxisByLabel] returns to the label it was given. *)
Theorem axis_code_round_trip label :
  label ∈ AXIS_NAMES ->
  (forall other, other ∈ AXIS_NAMES ->
     AMOTION_EVENT_AXIS other = AMOTION_EVENT_AXIS label -> other = label) ->
  exists axisId,
    getAxisByLabel AMOTION_EVENT_AXIS label = Some axisId /\
    getAxisLabel AMOTION_EVENT_AXIS axisId = Some (Some label).
Proof.
  intros Hin Hinj. exists (AMOTION_EVENT_AXIS label). split.
  - unfold getAxisByLabel, InputEventLabels.AXES, DEFINE_AXIS.
    rewrite lookupValueByLabel_names. by rewrite decide_True.
  - by apply lookupLabelByValue_names.
Qed.

(** X17. Key codes and labels when the constants number the table in
    order: [getLabelByKeyCode] and [getKeyCodeByLabel] are inverse to each
    other on the labels and codes of the table. *)
Theorem keycode_round_trip :
  (forall i name, KEYCODE_NAMES !! i = Some name -> AKEYCODE name = Z.of_nat i) ->
  (forall keyCode label,
     getLabelByKeyCode AKEYCODE keyCode = Some label ->
     getKeyCodeByLabel AKEYCODE label = Some keyCode) /\
  (forall label,
     label ∈ KEYCODE_NAMES ->
     exists keyCode,
       getKeyCodeByLabel AKEYCODE label = Some keyCode /\
       getLabelByKeyCode AKEYCODE keyCode = Some label).
Proof.
  intros Hpos. split.
  - intros keyCode label Hl.
    destruct (Z_lt_le_dec keyCode 0) as [Hneg|Hnn].
    { rewrite getLabelByKeyCode_outside in Hl by (left; lia). done. }
    destruct (Z_lt_le_dec keyCode 268) as [Hin|Hout].
    + destruct (getLabelByKeyCode_slot AKEYCODE keyCode) as [Hslot _]; [lia|].
      rewrite Hslot in Hl.
      unfold getKeyCodeByLabel, InputEventLabels.KEYCODES, DEFINE_KEYCODE.
      rewrite lookupValueByLabel_names.
      rewrite decide_True by (by eapply list_elem_of_lookup_2).
      rewrite (Hpos _ _ Hl). f_equal. lia.
    + destruct (Z_lt_le_dec keyCode 269) as [H9|H9].
      * replace keyCode with 268 in Hl by lia. done.
      * rewrite getLabelByKeyCode_outside in Hl; [done|].
        right. rewrite KEYCODES_length. lia.
  - intros label Hin. apply list_elem_of_lookup in Hin as [i Hi].
    exists (Z.of_nat i). split.
    + unfold getKeyCodeByLabel, InputEventLabels.KEYCODES, DEFINE_KEYCODE.
      rewrite lookupValueByLabel_names.
      rewrite decide_True by (by eapply list_elem_of_lookup_2).
      by rewrite (Hpos _ _ Hi).
    + apply lookup_lt_Some in Hi as Hlt.
      change (length KEYCODE_NAMES) with 268%nat in Hlt.
      destruct (getLabelByKeyCode_slot AKEYCODE (Z.of_nat i)) as [Hslot _]; [lia|].
      by rewrite Hslot, Nat2Z.id.
Qed.

End Constants.

End LookupFacts.

Module EdgeFacts.
Import Errno BitTube PosixFacts LoopFacts RawFacts RecordFacts BatchFacts.
Import InputEventLabels LabelFacts.

(** X19. [writeToParcel] is one-shot: whatever the first call did, a
    second call on the object it leaves returns [-EINVAL] and changes
    neither the object, nor the message, nor the world. *)
Theorem serialize_once t reply w :
  let '(result, t1, reply1, w1) := writeToParcel t reply w in
  writeToParcel t1 reply1 w1 = (- EINVAL, t1, reply1, w1).
Proof.
  unfold writeToParcel at 1. destruct (mReceiveFd t <? 0) eqn:E.
  - unfold writeToParcel. by rewrite E.
  - destruct (writeDupFileDescriptor _ _ _) as [[result reply1] w1].
    reflexivity.
Qed.

Section Width.
Variable wbits : positive.


End Width.

(** X21. [getLabelByKeyCode] is decided by position alone: for every key
    code and every choice of the constants it returns the name that stands
    at that index of the table, and NULL for a negative code or an index
    at or past the end. *)
Theorem getLabelByKeyCode_by_position AKEYCODE keyCode :
  getLabelByKeyCode AKEYCODE keyCode =
  if decide (0 <= keyCode) then KEYCODE_NAMES !! Z.to_nat keyCode else None.
Proof.
  case_decide as Hk.
  - destruct (Z_lt_le_dec keyCode 268) as [Hin|Hout].
    + by apply getLabelByKeyCode_slot.
    + rewrite lookup_ge_None_2
        by (change (length KEYCODE_NAMES) with 268%nat; lia).
      destruct (Z_lt_le_dec keyCode 269) as [H9|H9].
      * replace keyCode with 268 by lia. reflexivity.
      * apply getLabelByKeyCode_outside. right.
        rewrite KEYCODES_length. lia.
  - apply getLabelByKeyCode_outside. left. lia.
Qed.

End EdgeFacts.

Module Runs.
Import Errno BitTube Scenario InputEventLabels LabelFacts.
Import PosixFacts LoopFacts RawFacts RecordFacts ConditionFacts BatchFacts ChannelFacts DescriptorFacts Lifecycle.

(** The state of [pipe]: descriptor 0 receives, descriptor 1 sends, both
    buffers hold 4096 bytes. *)
Lemma pipe_connected : connected 32 pipe.1 pipe.1 pipe.2 [] 4096.
Proof.
  exists 0%nat, (mkSock [] 1 4096 4096 true None),
    (mkSock [] 1 4096 4096 true None).
  split_and!; try (vm_compute; reflexivity).
  - simpl. lia.
  - unfold SSIZE_MAX. simpl. lia.
Defined.

Lemma pipe_idle : no_message_pending (mReceiveFd pipe.1) pipe.2.
Proof.
  exists (0%nat, false), (mkSock [] 1 4096 4096 true None),
    (mkSock [] 1 4096 4096 true None).
  split_and!; try (vm_compute; reflexivity).
  - simpl. lia.
  - constructor.
Defined.

Lemma hung_up_closed : peer_closed (mReceiveFd pipe.1) hung_up.
Proof.
  exists (0%nat, false), (mkSock [] 1 4096 4096 true None),
    (mkSock [] 0 4096 4096 true None).
  split_and!; try (vm_compute; reflexivity).
  constructor.
Defined.

(** The scenario of the specification: 4096-byte buffers, three records
    of 64 bytes, received into a buffer of 256 bytes. *)
Lemma round_trip_witness :
  exists w1 w2,
    sendObjects 32 pipe.1 batch 3 64 pipe.2 = Some (Returned 3, w1) /\
    connected 32 pipe.1 pipe.1 w1 [batch] 4096 /\
    recvObjects 32 pipe.1 buffer 3 64 w1 =
      Some (Returned 3, batch ++ drop (length batch) buffer, w2) /\
    connected 32 pipe.1 pipe.1 w2 [] 4096.
Proof.
  apply (round_trip 32 pipe.1 pipe.1 pipe.2 4096 batch buffer 3 64
           pipe_connected); [lia | lia | lia | reflexivity].
Defined.

(** A datagram of 100 bytes read as records of 64 bytes aborts; the
    batch of 192 bytes is sent as 3 records. *)
Lemma boundary_check_witness :
  (exists events' w',
     recvObjects 32 pipe.1 buffer 3 64 (written 100) =
       Some (Aborted, events', w')) /\
  (exists n w', 0 <= n /\ n * 64 = 192 /\
     sendObjects 32 pipe.1 batch 3 64 pipe.2 = Some (Returned n, w')).
Proof.
  assert (H : 0 < 64 <= SSIZE_MAX 32) by (unfold SSIZE_MAX; simpl; lia).
  split.
  - destruct (proj2 (boundary_check 32 pipe.1 buffer 3 64 (written 100) H)
                100 (store (take 100 batch) buffer)
                (set_socks (<[(0%nat, false) := mkSock [] 1 4096 4096 true None]>
                              (socks (written 100))) (written 100)))
      as [Habort _]; [vm_compute; reflexivity | lia |].
    eexists _, _. apply Habort. intros [k Hk]. lia.
  - destruct (proj1 (boundary_check 32 pipe.1 batch 3 64 pipe.2 H)
                192 (written 192))
      as [_ Hwhole]; [vm_compute; reflexivity | lia |].
    destruct Hwhole as (n & Hn & Hmul & Hsend); [by exists 3|].
    by exists n, (written 192).
Defined.

Lemma filled_full :
  outbound_full (mSendFd pipe.1)
    (take (Z.to_nat (size_mul 32 1 1024)) (replicate 1024 "f"%byte)) (filled 4).
Proof.
  exists (0%nat, true), (mkSock [] 1 4096 4096 true None),
    (mkSock (replicate 4 (replicate 1024 "f"%byte)) 1 4096 4096 true None).
  split_and!; by vm_compute.
Defined.

(** Receiving on the fresh channel returns 0 records; sending a fifth
    kilobyte into buffers of 4096 bytes returns a negative code. *)
Lemma would_block_policy_witness :
  recvObjects 32 pipe.1 buffer 3 64 pipe.2 =
    Some (Returned 0, buffer, set_errno EAGAIN (settle pipe.2)) /\
  (exists code, code < 0 /\
     sendObjects 32 pipe.1 (replicate 1024 "f"%byte) 1 1024 (filled 4) =
       Some (Returned code, set_errno EAGAIN (settle (filled 4)))).
Proof.
  destruct (would_block_policy 32) as (Hrecv & Hsend & _).
  split.
  - apply Hrecv; [by vm_compute | exact pipe_idle].
  - apply Hsend. exact filled_full.
Defined.

(** With the record size 0 both helpers divide by zero on the fresh
    channel; with the record size 64 the divisor is not zero. *)
Lemma divisor_nonzero_witness :
  (to_ssize 32 64 =? 0) = false /\
  sendObjects 32 pipe.1 batch 3 0 pipe.2 = Some (DivisionByZero, written 0) /\
  recvObjects 32 pipe.1 buffer 3 0 pipe.2 =
    Some (DivisionByZero, buffer, set_errno EAGAIN pipe.2).
Proof.
  destruct (divisor_nonzero 32) as (Hd & _ & _ & _ & Hsend & Hrecv).
  split_and!.
  - apply Z.eqb_neq, Hd. by vm_compute.
  - apply (Hsend _ _ _ _ 0); [by vm_compute | lia].
  - apply (Hrecv _ _ _ _ 0); [by vm_compute | lia].
Defined.

(** A failing [socketpair] (EMFILE) leaves -24 for [initCheck] to report;
    the fresh channel reports [NO_ERROR]. *)
Lemma init_check_witness :
  initCheck (BitTube_bufsize 4096 (set_faults [Refuse 24] boot)).1 = - EMFILE /\
  initCheck pipe.1 = NO_ERROR.
Proof.
  destruct init_check as (_ & _ & Hfail & Hok). split.
  - destruct (Hfail 4096 (set_faults [Refuse 24] boot)) as (_ & -> & _);
      [by vm_compute | by vm_compute].
  - apply (Hok DEFAULT_SOCKET_BUFFER_SIZE DEFAULT_SOCKET_BUFFER_SIZE
             (mkTube (-1) (-1)) boot). by vm_compute.
Defined.

(** Rebuilding the channel from the message of [carried] gives a
    receive-only object on descriptor 0; an empty message gives an invalid
    one that reports -EBADF. *)
Lemma construct_from_parcel_witness :
  (BitTube_Parcel carried.1.2 carried.2).1 = mkTube (-1) 0 /\
  initCheck (BitTube_Parcel carried.1.2 carried.2).1 = NO_ERROR /\
  initCheck (BitTube_Parcel [] boot).1 = - EBADF.
Proof.
  destruct (construct_from_parcel carried.1.2 carried.2)
    as (Hs & _ & _ & Hok).
  destruct Hok as (Hr & Hic & _); [by vm_compute|].
  destruct (construct_from_parcel [] boot) as (_ & _ & Hfail & _).
  destruct Hfail as (_ & _ & Hbad & _); [by vm_compute|].
  split_and!.
  - destruct (BitTube_Parcel carried.1.2 carried.2).1 as [s r].
    simpl in *. rewrite Hs, Hr. by vm_compute.
  - exact Hic.
  - rewrite Hbad. by vm_compute.
Defined.

(** [writeToParcel] on an object without receive descriptor, and on the
    fresh channel. *)
Lemma serialize_witness :
  writeToParcel (mkTube 1 (-9)) [] boot = (- EINVAL, mkTube 1 (-9), [], boot) /\
  mReceiveFd carried.1.1.2 = -1 /\
  lookup_fd 0 carried.2 = None /\
  (exists d, carried.1.2 = [] ++ [d] /\ is_Some (lookup_fd d carried.2)).
Proof.
  split.
  - apply (proj1 (serialize (mkTube 1 (-9)) [] boot)). simpl. lia.
  - pose proof (proj2 (serialize pipe.1 [] pipe.2)) as H.
    specialize (H ltac:(by vm_compute)). cbv zeta in H.
    unfold carried.
    destruct (writeToParcel pipe.1 [] pipe.2) as [[[result t'] reply'] w'].
    destruct H as (Hres & _ & _ & Hfd & _ & _ & Hclosed & _ & Hdup).
    split_and!; [exact Hfd | exact Hclosed |].
    destruct Hdup as (d & Hd & _ & Hopen & _); [rewrite Hres; by vm_compute|].
    by exists d.
Defined.

(** The three outcomes on concrete states. *)
Lemma receive_outcomes_witness :
  read pipe.1 buffer 64 pipe.2 = Some (0, buffer, set_errno EAGAIN (settle pipe.2)) /\
  read pipe.1 buffer 64 hung_up = Some (0, buffer, settle hung_up) /\
  (exists r w', read (mkTube 1 (-1)) buffer 64 pipe.2 = Some (r, buffer, w') /\ r < 0).
Proof.
  split_and!.
  - apply (proj1 (receive_outcomes pipe.1 buffer 64 pipe.2)). exact pipe_idle.
  - apply (proj1 (proj2 (receive_outcomes pipe.1 buffer 64 hung_up))).
    exact hung_up_closed.
  - apply (proj2 (proj2 (receive_outcomes (mkTube 1 (-1)) buffer 64 pipe.2))).
    left. reflexivity.
Defined.

(** C7, as stated, fails: with no data yet and with the peer closed
    [read] returns the same value, 0. *)
Lemma would_block_like_hangup :
  no_message_pending (mReceiveFd pipe.1) pipe.2 /\
  peer_closed (mReceiveFd pipe.1) hung_up /\
  (λ x, x.1.1) <$> read pipe.1 buffer 64 pipe.2 = Some 0 /\
  (λ x, x.1.1) <$> read pipe.1 buffer 64 hung_up = Some 0.
Proof.
  split_and!; [exact pipe_idle | exact hung_up_closed | by vm_compute..].
Qed.

(** What the signed cast does to a record size above SSIZE_MAX: the
    divisor is negative, and 2147483647 bytes pass for whole records of
    2147483649 bytes. *)
Example records_huge_objSize :
  to_ssize 32 2147483649 = -2147483647 /\
  records 32 2147483647 2147483649 = Returned (-1).
Proof. by vm_compute. Qed.




(** [getLabelByKeyCode] answers by position, whatever the constants. *)
Example getLabelByKeyCode_HOME AKEYCODE :
  getLabelByKeyCode AKEYCODE 3 = Some "HOME"%string.
Proof. reflexivity. Qed.

Example getLabelByKeyCode_264 AKEYCODE :
  getLabelByKeyCode AKEYCODE 264 = Some "MEDIA_SKIP_FORWARD"%string.
Proof. reflexivity. Qed.

Example getKeyCodeByLabel_HOME AKEYCODE :
  getKeyCodeByLabel AKEYCODE "HOME" = Some (AKEYCODE "HOME"%string).
Proof. reflexivity. Qed.
End Runs.

Module MoreRuns.
Import Errno BitTube Drivers Scenario InputEventLabels LabelFacts Runs.
Import TransferFacts OrderFacts OwnershipFacts NamingFacts LookupFacts EdgeFacts.

Lemma interrupted_twice_script : interrupts (faults interrupted_twice).
Proof. repeat constructor. Defined.

(** Two interruptions before a send and before a receive on [pipe]. *)
Lemma interruptions_invisible_witness :
  write pipe.1 batch 192 interrupted_twice =
    write pipe.1 batch 192 (settle interrupted_twice) /\
  read pipe.1 buffer 192 interrupted_twice =
    read pipe.1 buffer 192 (settle interrupted_twice).
Proof.
  destruct (interruptions_invisible pipe.1 batch 192 interrupted_twice
              interrupted_twice_script) as [Hw _].
  destruct (interruptions_invisible pipe.1 buffer 192 interrupted_twice
              interrupted_twice_script) as [_ Hr].
  split; [apply Hw | apply Hr]; eexists; reflexivity.
Defined.

(** A send of the batch on [pipe]. *)
Lemma write_all_or_nothing_witness :
  exists r w', write pipe.1 batch 192 pipe.2 = Some (r, w') /\
    ((r < 0 /\ socks w' = socks pipe.2) \/
     (r = Z.of_nat (length (take (Z.to_nat 192) batch)) /\
      exists e p,
        lookup_fd (mSendFd pipe.1) pipe.2 = Some e /\
        socks pipe.2 !! peer e = Some p /\
        socks w' = <[peer e := enqueue (take (Z.to_nat 192) batch) p]> (socks pipe.2))).
Proof.
  apply (write_all_or_nothing pipe.1 batch 192 pipe.2). constructor.
Defined.

(** Three records of 64 bytes asked for on [pipe]. *)
Lemma record_count_bounded_witness :
  (exists o w', sendObjects 32 pipe.1 batch 3 64 pipe.2 = Some (o, w') /\
     forall n, o = Returned n -> n <= 3) /\
  (exists o events' w',
     recvObjects 32 pipe.1 buffer 3 64 (written 128) = Some (o, events', w') /\
     forall n, o = Returned n -> n <= 3).
Proof.
  split.
  - apply (record_count_bounded 32 pipe.1 batch 3 64 pipe.2);
      [unfold SSIZE_MAX; simpl; lia | lia].
  - apply (record_count_bounded 32 pipe.1 buffer 3 64 (written 128));
      [unfold SSIZE_MAX; simpl; lia | lia].
Defined.

Lemma three_batches_whole : whole three_batches 64.
Proof. repeat constructor. Defined.

(** Three batches through [pipe]. *)
Lemma batches_in_order_witness :
  connected 32 pipe.1 pipe.1 three_sent three_batches.*1 4096 /\
  exists w2,
    recvEach 32 pipe.1 buffer [1; 2; 1] 64 three_sent =
      Some ((λ b, (Returned b.2, b.1 ++ drop (length b.1) buffer))
              <$> three_batches, w2) /\
    connected 32 pipe.1 pipe.1 w2 [] 4096.
Proof.
  apply (batches_in_order 32 pipe.1 pipe.1 pipe.2 4096 64 buffer three_batches
           three_sent pipe_connected);
    [by vm_compute | exact three_batches_whole | by vm_compute].
Defined.

Lemma written_connected : connected 32 pipe.1 pipe.1 (written 192) [batch] 4096.
Proof.
  exists 0%nat, (mkSock [batch] 1 4096 4096 true None),
    (mkSock [] 1 4096 4096 true None).
  split_and!; by vm_compute.
Defined.

(** The batch of three records, received with a count of two. *)
Lemma short_receive_drops_rest_witness :
  exists w2,
    recvObjects 32 pipe.1 buffer 2 64 (written 192) =
      Some (Returned 2,
            take (Z.to_nat (2 * 64)) batch ++ drop (Z.to_nat (2 * 64)) buffer,
            w2) /\
    connected 32 pipe.1 pipe.1 w2 [] 4096.
Proof.
  apply (short_receive_drops_rest 32 pipe.1 pipe.1 (written 192) batch []
           4096 buffer 2 64 written_connected); try lia.
  by vm_compute.
Defined.

(** The transfer of [carried] and [rebuilt]. *)
Lemma handle_transfer_witness :
  mReceiveFd carried.1.1.2 = -1 /\ mSendFd rebuilt.1 = -1 /\
  connected 32 carried.1.1.2 rebuilt.1 rebuilt.2 [] 4096 /\
  exists w3 w4,
    sendObjects 32 carried.1.1.2 batch 3 64 rebuilt.2 = Some (Returned 3, w3) /\
    recvObjects 32 rebuilt.1 buffer 3 64 w3 =
      Some (Returned 3, batch ++ drop (length batch) buffer, w4).
Proof.
  assert (Hw : writeToParcel pipe.1 [] pipe.2 =
                (NO_ERROR, carried.1.1.2, carried.1.2, carried.2))
    by (vm_compute; reflexivity).
  assert (Hb : BitTube_Parcel carried.1.2 carried.2 = (rebuilt.1, rebuilt.2))
    by (vm_compute; reflexivity).
  assert (Hv : 0 <= mReceiveFd rebuilt.1) by (vm_compute; discriminate).
  pose proof (handle_transfer 32 pipe.1 pipe.2 [] 4096 _ _ _ _ _
                pipe_connected Hw Hb Hv) as (H1 & _ & H3 & H4 & H5).
  split; [exact H1|]. split; [exact H3|]. split; [exact H4|].
  apply (H5 eq_refl batch buffer 3 64); [lia | lia | lia | reflexivity].
Defined.

(** [BitTube(4096)] at [boot]. *)
Lemma constructor_valid_pair_witness :
  initCheck (BitTube_bufsize 4096 boot).1 = NO_ERROR /\
  mSendFd (BitTube_bufsize 4096 boot).1 <>
    mReceiveFd (BitTube_bufsize 4096 boot).1 /\
  BitTube_default boot = BitTube_bufsize 4096 boot.
Proof.
  destruct (constructor_valid_pair 4096 boot) as (H1 & H2 & _ & _ & _ & H6 & _);
    [done | by vm_compute |].
  by split_and!.
Defined.

(** The sample constants number every table in order. *)
Lemma sample_code_in_order names :
  NoDup names ->
  forall i name, names !! i = Some name -> sample_code names name = Z.of_nat i.
Proof.
  intros Hnd i name Hi. unfold sample_code.
  destruct (list_find (λ n, n = name) names) as [[j x]|] eqn:Hf.
  - apply list_find_Some in Hf as (Hj & -> & _). simpl.
    by rewrite (NoDup_lookup _ _ _ _ Hnd Hj Hi).
  - apply list_find_None in Hf. exfalso.
    apply (proj1 (Forall_forall _ _) Hf name); [|done].
    by eapply list_elem_of_lookup_2.
Defined.

Lemma KEYCODE_NAMES_NoDup : NoDup KEYCODE_NAMES.
Proof. apply (bool_decide_unpack _). by vm_compute. Defined.

Lemma AXIS_NAMES_NoDup : NoDup AXIS_NAMES.
Proof. apply (bool_decide_unpack _). by vm_compute. Defined.

Lemma sample_code_injective names a b :
  NoDup names -> a ∈ names -> b ∈ names ->
  sample_code names a = sample_code names b -> a = b.
Proof.
  intros Hnd [i Hi]%list_elem_of_lookup [j Hj]%list_elem_of_lookup.
  rewrite (sample_code_in_order names Hnd i a Hi),
    (sample_code_in_order names Hnd j b Hj).
  intros Heq. apply Nat2Z.inj in Heq. subst j. congruence.
Defined.

(** The axis "SIZE" under the sample constants. *)
Lemma axis_label_round_trip_witness :
  getAxisByLabel (sample_code AXIS_NAMES) "SIZE" = Some 3.
Proof.
  apply (axis_label_round_trip (sample_code AXIS_NAMES) 3 "SIZE"). reflexivity.
Defined.

Lemma axis_code_round_trip_witness :
  exists axisId,
    getAxisByLabel (sample_code AXIS_NAMES) "HAT_X" = Some axisId /\
    getAxisLabel (sample_code AXIS_NAMES) axisId = Some (Some "HAT_X"%string).
Proof.
  apply (axis_code_round_trip (sample_code AXIS_NAMES) "HAT_X").
  - apply (bool_decide_unpack _). by vm_compute.
  - intros other Ho. apply (sample_code_injective AXIS_NAMES);
      [exact AXIS_NAMES_NoDup | done |].
    apply (bool_decide_unpack _). by vm_compute.
Defined.

(** Key code 4 and the label "BACK" under the sample constants. *)
Lemma keycode_round_trip_witness :
  getKeyCodeByLabel (sample_code KEYCODE_NAMES) "BACK" = Some 4 /\
  (exists keyCode,
     getKeyCodeByLabel (sample_code KEYCODE_NAMES) "MENU" = Some keyCode /\
     getLabelByKeyCode (sample_code KEYCODE_NAMES) keyCode = Some "MENU"%string).
Proof.
  destruct (keycode_round_trip (sample_code KEYCODE_NAMES)
              (sample_code_in_order KEYCODE_NAMES KEYCODE_NAMES_NoDup))
    as [Hfrom Hto].
  split.
  - apply Hfrom. reflexivity.
  - apply Hto. apply (bool_decide_unpack _). by vm_compute.
Defined.

Lemma getLabelByKeyCode_positional_witness :
  lookupLabelByValue 82 (KEYCODES (sample_code KEYCODE_NAMES)) =
    Some (getLabelByKeyCode (sample_code KEYCODE_NAMES) 82) /\
  lookupLabelByValue 300 (KEYCODES (sample_code KEYCODE_NAMES)) =
    Some (getLabelByKeyCode (sample_code KEYCODE_NAMES) 300).
Proof.
  split; apply getLabelByKeyCode_positional;
    exact (sample_code_in_order KEYCODE_NAMES KEYCODE_NAMES_NoDup).
Defined.


End MoreRuns.
